(** * c10/util/tempfile.h: temporary files and directories with scoped removal

    A shallow embedding of [c10::detail::make_filename], [c10::TempFile],
    [c10::TempDir], [c10::try_make_tempfile], [c10::make_tempfile],
    [c10::try_make_tempdir] and [c10::make_tempdir], for both branches of
    [#if defined(_WIN32)], and of the two tests of
    c10/test/util/tempfile_test.cpp.

    The header is a thin layer over operating-system calls, so the embedding
    threads an explicit [World] (file system, descriptor table, environment,
    [errno], the Win32 last-error code, and the answers the system is going
    to give to its name generators) through a state-and-exception monad.

    Conventions of the operating-system model:
    - a path is the literal string handed to the system: no symbolic
      links and no normalisation, each entry being listed in [fs] under
      the one spelling that is used for it;
    - the entries of the file system are regular files and directories; a
      directory is empty when no entry has it as parent;
    - creating and deleting an entry fail as the system calls do: a missing
      or non-directory component on the way ([ENOENT], [ENOTDIR]), a name
      beyond [NAME_MAX] or [PATH_MAX] ([ENAMETOOLONG]), an entry that exists
      ([EEXIST]), a directory that has entries ([ENOTEMPTY]), the root,
      the working directory or a final component [.] or [..] ([EBUSY],
      [EINVAL], [ENOTEMPTY]); every other reason (permissions, a read-only
      or full file system, no descriptor left) is an answer of the world,
      [refuses];
    - a C API reads a [std::string] buffer up to its first NUL ([c_str]);
    - [mkstemp] and [mkdtemp] work as in the C library: one candidate name
      per random draw of the world, created exclusively, a candidate that
      exists being skipped; the names [tmpnam_s] generates on Windows are
      answers of the world;
    - a moved-from [std::string] or [std::filesystem::path] is empty.

    Move assignment is modelled twice: on values, for two distinct objects,
    and statement by statement on a store of objects, where the source and
    the destination may be one object. *)

From Stdlib Require Import ZArith NArith Ascii.
From stdpp Require Import base gmap sets list strings.

Local Open Scope Z_scope.

(** ** Strings *)

Module Str.

Definition NUL : ascii := Ascii.zero.
Definition slash : ascii := "/"%char.
Definition backslash : ascii := "\"%char.

Definition empty (s : string) : bool :=
  match s with EmptyString => true | String _ _ => false end.

(** What a [const char*] view of the buffer shows: the bytes before the
    first NUL. *)
Fixpoint c_str (s : string) : string :=
  match s with
  | EmptyString => EmptyString
  | String c r => if decide (c = NUL) then EmptyString else String c (c_str r)
  end.

(** The bytes of the buffer from its first NUL on. *)
Fixpoint after_c_str (s : string) : string :=
  match s with
  | EmptyString => EmptyString
  | String c r => if decide (c = NUL) then s else after_c_str r
  end.

Fixpoint forallb (p : ascii → bool) (s : string) : bool :=
  match s with
  | EmptyString => true
  | String c r => p c && forallb p r
  end.

Fixpoint existsb (p : ascii → bool) (s : string) : bool :=
  match s with
  | EmptyString => false
  | String c r => p c || existsb p r
  end.

Definition starts_with (p : ascii → bool) (s : string) : bool :=
  match s with EmptyString => false | String c _ => p c end.

Fixpoint ends_with (p : ascii → bool) (s : string) : bool :=
  match s with
  | EmptyString => false
  | String c EmptyString => p c
  | String _ r => ends_with p r
  end.

Definition no_nul (s : string) : bool :=
  forallb (λ c, bool_decide (c ≠ NUL)) s.

(** [s] contains [t] as a contiguous substring. *)
Definition contains (s t : string) : Prop :=
  ∃ a b, s = a +:+ t +:+ b.

(** [strip_suffix sfx s] is [Some stem] exactly when [s = stem ++ sfx]. *)
Fixpoint strip_suffix (sfx s : string) : option string :=
  if decide (s = sfx) then Some EmptyString
  else match s with
       | EmptyString => None
       | String c r => String c <$> strip_suffix sfx r
       end.

End Str.

(** ** Paths *)

Inductive platform := Posix | Win32.

Global Instance platform_eq_dec : EqDecision platform.
Proof. solve_decision. Defined.

Module Path.

(** Directory separators: [/] everywhere, and also [\] on Windows. *)
Definition is_sep (plat : platform) (c : ascii) : bool :=
  match plat with
  | Posix => bool_decide (c = Str.slash)
  | Win32 => bool_decide (c = Str.slash) || bool_decide (c = Str.backslash)
  end.

Definition has_sep (plat : platform) (s : string) : bool :=
  Str.existsb (is_sep plat) s.

(** The final component: what follows the last separator. *)
Fixpoint filename (plat : platform) (p : string) : string :=
  match p with
  | EmptyString => EmptyString
  | String c r =>
      if has_sep plat r then filename plat r
      else if is_sep plat c then r else p
  end.

Fixpoint before_last_sep (plat : platform) (p : string) : string :=
  match p with
  | EmptyString => EmptyString
  | String c r =>
      if has_sep plat r then String c (before_last_sep plat r) else EmptyString
  end.

(** The directory an entry is created in: the text before the last
    separator, ["/"] for an entry of the root, and ["."] (the working
    directory) for a name without separator. *)
Definition parent (plat : platform) (p : string) : string :=
  if has_sep plat p then
    let d := before_last_sep plat p in
    if Str.empty d then "/" else d
  else ".".

(** [std::filesystem::path] predicates, POSIX flavour. *)
Definition is_absolute (p : string) : bool :=
  Str.starts_with (is_sep Posix) p.

Definition has_filename (p : string) : bool :=
  negb (Str.empty p) && negb (Str.ends_with (is_sep Posix) p).

(** [lhs /= p]: an absolute [p] replaces [lhs]; otherwise a separator is
    added when [lhs] has a filename, and [p] is appended. *)
Definition append (lhs p : string) : string :=
  if is_absolute p then p
  else if has_filename lhs then lhs +:+ "/" +:+ p
  else lhs +:+ p.

(** [lhs += s]: plain concatenation. *)
Definition concat (lhs s : string) : string := lhs +:+ s.

(** A final component [.] or [..]: the directory itself or its parent,
    never an entry to create or to delete. *)
Definition dots (plat : platform) (p : string) : bool :=
  bool_decide (filename plat p = ".") || bool_decide (filename plat p = "..").

(** A path whose final component can name an entry of its directory: it is
    not empty (as it is for the root and after a trailing separator), nor
    [.] nor [..]. *)
Definition plain (plat : platform) (p : string) : bool :=
  negb (bool_decide (filename plat p = "") || dots plat p).

(** The directories on the way to [p], the nearest first, up to the root
    or the working directory (which are their own parents). *)
Fixpoint ancestors (plat : platform) (fuel : nat) (p : string) : list string :=
  match fuel with
  | O => []
  | S fuel' =>
      let d := parent plat p in
      if decide (d = p) then [] else d :: ancestors plat fuel' d
  end.

End Path.

(** ** The operating system *)

Inductive node := File | Dir.

Global Instance node_eq_dec : EqDecision node.
Proof. solve_decision. Defined.

(** The calls a program makes to the system, most recent first in a trace. *)
Inductive event :=
| ev_getenv (variable : string)
| ev_mkstemp (template : string) (fd : Z)
| ev_mkdtemp (template : string) (created : bool)
| ev_remove (path : string)
| ev_close (fd : Z)
| ev_tmpnam_s (generated : bool)
| ev_create_directories (path : string) (created : bool)
| ev_warn (msg : string).

(** Why the system may refuse to look for an entry, to create it or to
    delete it, for a reason that the contents of the file system do not
    show. *)
Inductive refusal :=
| search_denied         (* a directory on the way may not be searched *)
| write_denied          (* the directory of the entry may not be written *)
| not_permitted         (* immutable or append-only, sticky directory *)
| read_only             (* read-only file system *)
| busy                  (* a mount point, an entry in use *)
| no_space              (* no room or quota left *)
| too_many_open_files   (* no descriptor left *)
| io_error.

(** What a program asks of the system about a path. *)
Inductive access := Lookup | Create (kind : node) | Delete.

(** Which requests a refusal stands in the way of: a directory that may
    not be searched or read hides what is below it from every request;
    the others leave a lookup alone; a directory is made without a
    descriptor; and what is only missing for a new entry (room, a
    descriptor) does not prevent a deletion. *)
Definition hinders (a : access) (r : refusal) : bool :=
  match a, r with
  | _, (search_denied | io_error) => true
  | Lookup, _ => false
  | Create Dir, too_many_open_files => false
  | Create _, _ => true
  | Delete, (no_space | too_many_open_files) => false
  | Delete, _ => true
  end.

Record World := mkWorld {
  fs : gmap string node;             (* path -> kind of entry *)
  fds : gset Z;                      (* open file descriptors *)
  env : gmap string string;          (* environment variables *)
  errno : Z;
  last_error : Z;                    (* Win32 [GetLastError()] *)
  entropy : list N;                  (* random draws of the C library *)
  tmpnam_answers : list (option string); (* what [tmpnam_s] will generate *)
  trace : list event;
  refuses : string → option refusal  (* paths the system will not touch *)
}.

Definition with_fs (m : gmap string node) (w : World) : World :=
  mkWorld m (fds w) (env w) (errno w) (last_error w) (entropy w)
    (tmpnam_answers w) (trace w) (refuses w).
Definition with_fds (s : gset Z) (w : World) : World :=
  mkWorld (fs w) s (env w) (errno w) (last_error w) (entropy w)
    (tmpnam_answers w) (trace w) (refuses w).
Definition with_errno (e : Z) (w : World) : World :=
  mkWorld (fs w) (fds w) (env w) e (last_error w) (entropy w)
    (tmpnam_answers w) (trace w) (refuses w).
Definition with_last_error (e : Z) (w : World) : World :=
  mkWorld (fs w) (fds w) (env w) (errno w) e (entropy w)
    (tmpnam_answers w) (trace w) (refuses w).
Definition with_entropy (l : list N) (w : World) : World :=
  mkWorld (fs w) (fds w) (env w) (errno w) (last_error w) l
    (tmpnam_answers w) (trace w) (refuses w).
Definition with_tmpnam_answers (l : list (option string)) (w : World) : World :=
  mkWorld (fs w) (fds w) (env w) (errno w) (last_error w) (entropy w)
    l (trace w) (refuses w).
Definition with_refuses (f : string → option refusal) (w : World) : World :=
  mkWorld (fs w) (fds w) (env w) (errno w) (last_error w) (entropy w)
    (tmpnam_answers w) (trace w) f.
Definition log (e : event) (w : World) : World :=
  mkWorld (fs w) (fds w) (env w) (errno w) (last_error w) (entropy w)
    (tmpnam_answers w) (e :: trace w) (refuses w).

(** A system that refuses nothing. *)
Definition willing : string → option refusal := λ _, None.

(** [errno] values (Linux numbering) and Win32 error codes. *)
Definition EPERM : Z := 1.
Definition ENOENT : Z := 2.
Definition EIO : Z := 5.
Definition EBADF : Z := 9.
Definition EACCES : Z := 13.
Definition EBUSY : Z := 16.
Definition EEXIST : Z := 17.
Definition ENOTDIR : Z := 20.
Definition EINVAL : Z := 22.
Definition EMFILE : Z := 24.
Definition ENOSPC : Z := 28.
Definition EROFS : Z := 30.
Definition ENAMETOOLONG : Z := 36.
Definition ENOTEMPTY : Z := 39.
Definition ERROR_PATH_NOT_FOUND : Z := 3.
Definition ERROR_TOO_MANY_OPEN_FILES : Z := 4.
Definition ERROR_ACCESS_DENIED : Z := 5.
Definition ERROR_WRITE_PROTECT : Z := 19.
Definition ERROR_SHARING_VIOLATION : Z := 32.
Definition ERROR_DISK_FULL : Z := 112.
Definition ERROR_ALREADY_EXISTS : Z := 183.
Definition ERROR_IO_DEVICE : Z := 1117.

(** The limits of [<limits.h>] on Linux: bytes of one component, bytes of
    a whole path with its final NUL. *)
Definition NAME_MAX : Z := 255.
Definition PATH_MAX : Z := 4096.

Definition strerror (e : Z) : string :=
  if decide (e = 0) then "Success"
  else if decide (e = EPERM) then "Operation not permitted"
  else if decide (e = ENOENT) then "No such file or directory"
  else if decide (e = EIO) then "Input/output error"
  else if decide (e = EBADF) then "Bad file descriptor"
  else if decide (e = EACCES) then "Permission denied"
  else if decide (e = EBUSY) then "Device or resource busy"
  else if decide (e = EEXIST) then "File exists"
  else if decide (e = ENOTDIR) then "Not a directory"
  else if decide (e = EINVAL) then "Invalid argument"
  else if decide (e = EMFILE) then "Too many open files"
  else if decide (e = ENOSPC) then "No space left on device"
  else if decide (e = EROFS) then "Read-only file system"
  else if decide (e = ENAMETOOLONG) then "File name too long"
  else if decide (e = ENOTEMPTY) then "Directory not empty"
  else "Unknown error".

(** The error code a refusal is reported with. *)
Definition errno_of (r : refusal) : Z :=
  match r with
  | search_denied | write_denied => EACCES
  | not_permitted => EPERM
  | read_only => EROFS
  | busy => EBUSY
  | no_space => ENOSPC
  | too_many_open_files => EMFILE
  | io_error => EIO
  end.

Definition win32_error_of (r : refusal) : Z :=
  match r with
  | search_denied | write_denied | not_permitted => ERROR_ACCESS_DENIED
  | read_only => ERROR_WRITE_PROTECT
  | busy => ERROR_SHARING_VIOLATION
  | no_space => ERROR_DISK_FULL
  | too_many_open_files => ERROR_TOO_MANY_OPEN_FILES
  | io_error => ERROR_IO_DEVICE
  end.

(** ** Computations: state, C++ exceptions, [std::terminate] *)

Inductive exn :=
| c10_Error (msg : string)
| filesystem_error (what : string) (code : Z).

Inductive outcome (A : Type) :=
| Ret (a : A)
| Throw (e : exn)
| Terminate.
Arguments Ret {A} a.
Arguments Throw {A} e.
Arguments Terminate {A}.

Definition M (A : Type) : Type := World → World * outcome A.

Definition ret {A} (a : A) : M A := λ w, (w, Ret a).

Definition bind {A B} (m : M A) (k : A → M B) : M B :=
  λ w, match m w with
       | (w1, Ret a) => k a w1
       | (w1, Throw e) => (w1, Throw e)
       | (w1, Terminate) => (w1, Terminate)
       end.

Definition throw {A} (e : exn) : M A := λ w, (w, Throw e).

(** An exception that leaves a [noexcept] function (every destructor is
    one) calls [std::terminate]. *)
Definition noexcept {A} (m : M A) : M A :=
  λ w, match m w with
       | (w1, Throw _) => (w1, Terminate)
       | r => r
       end.

Declare Scope cxx_scope.
Delimit Scope cxx_scope with cxx.
Notation "x <- m ;; k" := (bind m (λ x, k))
  (at level 100, m at next level, right associativity) : cxx_scope.
Notation "m ;; k" := (bind m (λ _, k))
  (at level 100, right associativity) : cxx_scope.
Local Open Scope cxx_scope.

(** A system call: never throws. *)
Definition syscall {A} (f : World → World * A) : M A :=
  λ w, let '(w1, a) := f w in (w1, Ret a).

Module OS.

(** *** Environment *)

(** [getenv(variable)]: the value as a C string, or a null pointer. *)
Definition getenv (variable : string) : M (option string) :=
  syscall (λ w, (log (ev_getenv variable) w, Str.c_str <$> env w !! variable)).

(** *** Descriptors *)

Fixpoint lowest_free (s : gset Z) (fuel : nat) (k : Z) : Z :=
  match fuel with
  | O => k
  | S fuel' => if decide (k ∈ s) then lowest_free s fuel' (k + 1) else k
  end.

(** POSIX hands out the lowest descriptor that is not open. *)
Definition next_fd (s : gset Z) : Z := lowest_free s (size s) 0.

Definition close (fd : Z) : M Z :=
  syscall (λ w,
    if decide (fd ∈ fds w)
    then (log (ev_close fd) (with_fds (fds w ∖ {[fd]}) w), 0)
    else (log (ev_close fd) (with_errno EBADF w), -1)).

(** *** Creating entries *)

(** The system walks the directories on the way to a path from the root
    (or the working directory) down: a component longer than [NAME_MAX] is
    [ENAMETOOLONG], one that is missing is [ENOENT], one that is a regular
    file is [ENOTDIR]. This is the error the walk stops with. *)
Fixpoint walk (plat : platform) (m : gmap string node) (dirs : list string)
  : Z :=
  match dirs with
  | [] => ENOENT
  | d :: rest =>
      if bool_decide (NAME_MAX < Z.of_nat (String.length (Path.filename plat d)))
      then ENAMETOOLONG
      else match m !! d with
           | Some Dir => walk plat m rest
           | Some File => ENOTDIR
           | None => ENOENT
           end
  end.

(** Why the system refuses a request, if the world has it refuse. *)
Definition refused (a : access) (path : string) (w : World) : option refusal :=
  match refuses w path with
  | Some r => if hinders a r then Some r else None
  | None => None
  end.

(** Why the place of the entry [path], which does not exist, cannot be
    reached, if it cannot: the path is empty or too long, its directory is
    missing or is a file, its final component is too long. *)
Definition reach_error (plat : platform) (path : string) (w : World)
  : option Z :=
  if Str.empty path then Some ENOENT
  else if bool_decide (PATH_MAX ≤ Z.of_nat (String.length path))
  then Some ENAMETOOLONG
  else match fs w !! Path.parent plat path with
       | Some Dir =>
           if bool_decide
                (NAME_MAX < Z.of_nat (String.length (Path.filename plat path)))
           then Some ENAMETOOLONG
           else None
       | Some File => Some ENOTDIR
       | None =>
           Some (walk plat (fs w)
                   (rev (Path.ancestors plat (2 + String.length path) path)))
       end.

(** Why an entry cannot be created at [path], if it cannot: the system
    cannot look, the entry exists, its place cannot be reached, the name
    is [.] or [..], or the system refuses the creation. *)
Definition create_error (plat : platform) (kind : node) (path : string)
    (w : World) : option Z :=
  if Str.empty path then Some ENOENT
  else match refused Lookup path w with
       | Some r => Some (errno_of r)
       | None =>
           match fs w !! path with
           | Some _ => Some EEXIST
           | None =>
               match reach_error plat path w with
               | Some e => Some e
               | None =>
                   if Path.dots plat path then Some EEXIST
                   else errno_of <$> refused (Create kind) path w
               end
           end
       end.

(** [open(path, O_RDWR | O_CREAT | O_EXCL, 0600)] *)
Definition open_excl (path : string) (w : World) : World * Z :=
  match create_error Posix File path w with
  | Some e => (with_errno e w, -1)
  | None =>
      let fd := next_fd (fds w) in
      (with_fds ({[fd]} ∪ fds w) (with_fs (<[path := File]> (fs w)) w), fd)
  end.

(** [mkdir(path, 0700)] *)
Definition mkdir (path : string) (w : World) : World * Z :=
  match create_error Posix Dir path w with
  | Some e => (with_errno e w, -1)
  | None => (with_fs (<[path := Dir]> (fs w)) w, 0)
  end.

(** *** Unique names, the way the C library makes them *)

Definition placeholder : string := "XXXXXX".

Definition letters : string :=
  "abcdefghijklmnopqrstuvwxyzABCDEFGHIJKLMNOPQRSTUVWXYZ0123456789".

Definition letter (i : N) : ascii :=
  default "a"%char (String.get (N.to_nat i) letters).

(** [n] characters out of one random draw, base 62. *)
Fixpoint fill (n : nat) (v : N) : string :=
  match n with
  | O => EmptyString
  | S n' => String (letter (v mod 62)%N) (fill n' (v / 62)%N)
  end.
Global Arguments fill : simpl never.

(** One candidate per draw; a candidate that exists already ([EEXIST]) is
    skipped, any other error stops the search, and running out of draws
    reports [EEXIST]. *)
Fixpoint try_names (tryfunc : string → World → World * Z) (stem : string)
    (draws : list N) (w : World) : World * (Z * string) :=
  match draws with
  | [] => (with_errno EEXIST w, (-1, stem +:+ placeholder))
  | v :: rest =>
      let name := stem +:+ fill 6 v in
      let '(w1, r) := tryfunc name (with_entropy rest w) in
      if decide (0 ≤ r) then (w1, (r, name))
      else if decide (errno w1 = EEXIST) then try_names tryfunc stem rest w1
      else (w1, (-1, name))
  end.

Definition gen_tempname (tryfunc : string → World → World * Z)
    (template : string) (w : World) : World * (Z * string) :=
  match Str.strip_suffix placeholder template with
  | None => (with_errno EINVAL w, (-1, template))
  | Some stem => try_names tryfunc stem (entropy w) w
  end.

(** [mkstemp(buf.data())]: the descriptor (or -1) and the buffer afterwards;
    only the bytes before the first NUL are the template. *)
Definition mkstemp (buf : string) : M (Z * string) :=
  syscall (λ w,
    let template := Str.c_str buf in
    let '(w1, (fd, name)) := gen_tempname open_excl template w in
    (log (ev_mkstemp template fd) w1, (fd, name +:+ Str.after_c_str buf))).

(** [mkdtemp(buf.data())]: a pointer to the template, now holding the
    name of the new directory, or a null pointer. *)
Definition mkdtemp (buf : string) : M (option string) :=
  syscall (λ w,
    let template := Str.c_str buf in
    let '(w1, (r, name)) := gen_tempname mkdir template w in
    (log (ev_mkdtemp template (bool_decide (0 ≤ r))) w1,
     if decide (0 ≤ r) then Some name else None)).

(** *** Removing entries *)

Definition dir_empty (plat : platform) (m : gmap string node) (d : string)
  : bool :=
  bool_decide (map_Forall (λ q _, q = d ∨ Path.parent plat q ≠ d) m).

(** What [rmdir] answers for a final component [.] or [..]. *)
Definition dots_error (plat : platform) (path : string) : Z :=
  if decide (Path.filename plat path = ".") then EINVAL else ENOTEMPTY.

(** Why the entry at [path] cannot be deleted, if it cannot, as C's
    [remove] reports it. An entry that is there is not deleted when it is
    the root or the working directory, when (on POSIX) it is named by [.]
    or [..], when the system refuses, or when it is a directory that has
    entries. When nothing is there the error is [ENOENT], or what stopped
    the system on the way; the Windows library reports every way of not
    finding the entry (file not found, path not found, invalid name) as
    "not found". *)
Definition remove_error (plat : platform) (path : string) (w : World)
  : option Z :=
  match fs w !! path with
  | Some kind =>
      if decide (Path.parent plat path = path)
      then Some (if decide (path = ".") then EINVAL else EBUSY)
      else if match plat with Posix => Path.dots Posix path | Win32 => false end
      then Some (dots_error plat path)
      else match refused Delete path w with
           | Some r => Some (errno_of r)
           | None =>
               match kind with
               | File => None
               | Dir =>
                   if dir_empty plat (fs w) path then None else Some ENOTEMPTY
               end
           end
  | None =>
      match plat with
      | Posix =>
          match refused Lookup path w with
          | Some r => Some (errno_of r)
          | None =>
              match reach_error Posix path w with
              | Some e => Some e
              | None =>
                  Some (if Path.dots Posix path then dots_error Posix path
                        else ENOENT)
              end
          end
      | Win32 => Some ENOENT
      end
  end.

(** [std::filesystem::remove(p)], the overload that throws: deletes a
    file or an empty directory and returns true, returns false when the
    system reports that nothing is there, and throws [filesystem_error] on
    every other error. *)
Definition fs_remove (plat : platform) (p : string) : M bool :=
  λ w,
    let path := Str.c_str p in
    let w0 := log (ev_remove path) w in
    match remove_error plat path w with
    | None => (with_fs (delete path (fs w)) w0, Ret true)
    | Some e =>
        if decide (e = ENOENT) then (with_errno ENOENT w0, Ret false)
        else (with_errno e w0, Throw (filesystem_error "cannot remove" e))
    end.

(** *** The Windows calls *)

(** [tmpnam_s(name, L_tmpnam_s)]: the error code and the name written to
    the buffer. The name did not exist when it was generated; nothing
    reserves it. *)
Definition tmpnam_s : M (Z * string) :=
  syscall (λ w,
    match tmpnam_answers w with
    | Some name :: rest =>
        (log (ev_tmpnam_s true) (with_tmpnam_answers rest w),
         (0, Str.c_str name))
    | None :: rest =>
        (log (ev_tmpnam_s false) (with_tmpnam_answers rest w), (EINVAL, ""))
    | [] => (log (ev_tmpnam_s false) w, (ENOENT, ""))
    end).

Fixpoint mkdirs (fuel : nat) (p : string) (m : gmap string node)
  : option (gmap string node) :=
  match m !! p with
  | Some Dir => Some m
  | Some File => None
  | None =>
      match fuel with
      | O => None
      | S fuel' => (λ m', <[p := Dir]> m') <$> mkdirs fuel' (Path.parent Win32 p) m
      end
  end.

(** [std::filesystem::create_directories(p, ec)]: true when the directory
    was created (with the ancestors it lacked); false, with last error
    [ERROR_ALREADY_EXISTS], when the path exists; false with another
    last error when the system refuses or an ancestor cannot be a
    directory. *)
Definition create_directories (p : string) : M bool :=
  syscall (λ w,
    let path := Str.c_str p in
    match fs w !! path with
    | Some _ =>
        (log (ev_create_directories path false)
           (with_last_error ERROR_ALREADY_EXISTS w), false)
    | None =>
        match refused (Create Dir) path w with
        | Some r =>
            (log (ev_create_directories path false)
               (with_last_error (win32_error_of r) w), false)
        | None =>
            match mkdirs (S (String.length path)) path (fs w) with
            | Some m =>
                (log (ev_create_directories path true) (with_fs m w), true)
            | None =>
                (log (ev_create_directories path false)
                   (with_last_error ERROR_PATH_NOT_FOUND w), false)
            end
        end
    end).

Definition GetLastError : M Z := syscall (λ w, (w, last_error w)).

(** [std::strerror(errno)] *)
Definition strerror_errno : M string := syscall (λ w, (w, strerror (errno w))).

End OS.

(** ** c10/util/Exception.h *)

(** Modelled from the spec: the macro [TORCH_CHECK] of c10/util/Exception.h,
    which is not part of the sources at hand. A failed check "fails fatally
    with an error that includes" the message arguments: it throws
    [c10::Error] carrying their concatenation. *)
Definition TORCH_CHECK_false {A} (args : list string) : M A :=
  throw (c10_Error (foldr String.append "" args)).

(** Modelled from the spec: the macro [TORCH_WARN] of c10/util/Exception.h,
    which is not part of the sources at hand; it reports the message and
    returns. *)
Definition TORCH_WARN (msg : string) : M unit :=
  syscall (λ w, (log (ev_warn msg) w, tt)).

(** ** c10/util/tempfile.h *)

Module c10.

(** What a move leaves behind: [std::string] and [std::filesystem::path]
    hand their buffer over and are empty afterwards. The result pairs the
    value received with the state of the source. *)
Definition string_move (s : string) : string * string := (s, "").

Module detail.

Definition kRandomPattern : string := "XXXXXX".

Definition env_variables : list string := ["TMPDIR"; "TMP"; "TEMP"; "TEMPDIR"].

(** The loop over [env_variables], leaving at the first variable that
    is set. *)
Fixpoint first_set (variables : list string) (tmp_directory : string)
  : M string :=
  match variables with
  | [] => ret tmp_directory
  | variable :: rest =>
      path <- OS.getenv variable ;;
      match path with
      | Some p => ret p
      | None => first_set rest tmp_directory
      end
  end.

(** [make_filename(name_prefix)], [!defined(_WIN32)] *)
Definition make_filename_posix (name_prefix : string) : M string :=
  tmp_directory <- first_set env_variables "/tmp" ;;
  let filename := tmp_directory in
  let filename := Path.append filename name_prefix in
  let filename := Path.concat filename kRandomPattern in
  ret filename.

(** [make_filename()], [defined(_WIN32)] *)
Definition make_filename_win32 : M string :=
  r <- OS.tmpnam_s ;;
  let '(res, name) := r in
  if decide (res ≠ 0) then
    TORCH_WARN "Error generating temporary file" ;;
    ret ""
  else ret name.

Definition make_filename (plat : platform) (name_prefix : string) : M string :=
  match plat with
  | Win32 => make_filename_win32
  | Posix => make_filename_posix name_prefix
  end.

End detail.

Module TempFile.

Record t := mk { fd : Z; name : string }.

(** [TempFile(const std::filesystem::path& name, int fd = -1)] *)
Definition ctor (name : string) (fd : Z) : t := mk fd name.

(** [TempFile(TempFile&& other)]: the new object and the state of
    [other] afterwards. *)
Definition move_ctor (other : t) : t * t :=
  let this_fd := fd other in
  let '(this_name, other_name) := string_move (name other) in
  let other_fd := -1 in
  (mk this_fd this_name, mk other_fd other_name).

(** [operator=(TempFile&& other)], for two distinct objects: the states
    of [*this] and of [other] afterwards. *)
Definition move_assign (this other : t) : t * t :=
  let this_fd := fd other in
  let other_fd := -1 in
  let '(this_name, other_name) := string_move (name other) in
  let other_name := "" in
  (mk this_fd this_name, mk other_fd other_name).

(** [~TempFile()] *)
Definition dtor (plat : platform) (this : t) : M unit :=
  noexcept (
    if negb (Str.empty (name this)) then
      OS.fs_remove plat (name this) ;;
      match plat with
      | Posix =>
          if decide (fd this >= 0) then OS.close (fd this) ;; ret tt
          else ret tt
      | Win32 => ret tt
      end
    else ret tt).

End TempFile.

Module TempDir.

Record t := mk { name : string }.

(** [TempDir() = default] *)
Definition default_ctor : t := mk "".

(** [explicit TempDir(std::filesystem::path name)] *)
Definition ctor (name : string) : t := mk (fst (string_move name)).

(** [TempDir(TempDir&& other)] *)
Definition move_ctor (other : t) : t * t :=
  let '(this_name, other_name) := string_move (name other) in
  let other_name := "" in
  (mk this_name, mk other_name).

(** [operator=(TempDir&& other)], for two distinct objects *)
Definition move_assign (this other : t) : t * t :=
  let '(this_name, other_name) := string_move (name other) in
  let other_name := "" in
  (mk this_name, mk other_name).

(** [~TempDir()] *)
Definition dtor (plat : platform) (this : t) : M unit :=
  noexcept (
    if negb (Str.empty (name this)) then
      OS.fs_remove plat (name this) ;; ret tt
    else ret tt).

End TempDir.

(** [return TempFile(...)] out of a function returning
    [c10::optional<TempFile>]: the temporary is moved into the optional
    and destroyed. *)
Definition return_TempFile (plat : platform) (temporary : TempFile.t)
  : M (option TempFile.t) :=
  let '(value, temporary) := TempFile.move_ctor temporary in
  TempFile.dtor plat temporary ;;
  ret (Some value).

Definition return_TempDir (plat : platform) (temporary : TempDir.t)
  : M (option TempDir.t) :=
  let '(value, temporary) := TempDir.move_ctor temporary in
  TempDir.dtor plat temporary ;;
  ret (Some value).

Definition try_make_tempfile (plat : platform) (name_prefix : string)
  : M (option TempFile.t) :=
  filename <- detail.make_filename plat name_prefix ;;
  if Str.empty filename then ret None
  else
    match plat with
    | Win32 => return_TempFile plat (TempFile.ctor filename (-1))
    | Posix =>
        r <- OS.mkstemp filename ;;
        let '(fd, filename) := r in
        if decide (fd = -1) then ret None
        else return_TempFile plat (TempFile.ctor filename fd)
    end.

(** [return std::move( *tempfile )]: the result is moved out of the
    optional, whose content is then destroyed. *)
Definition make_tempfile (plat : platform) (name_prefix : string)
  : M TempFile.t :=
  tempfile <- try_make_tempfile plat name_prefix ;;
  match tempfile with
  | Some tempfile =>
      let '(result, tempfile) := TempFile.move_ctor tempfile in
      TempFile.dtor plat tempfile ;;
      ret result
  | None =>
      description <- OS.strerror_errno ;;
      TORCH_CHECK_false ["Error generating temporary file: "; description]
  end.

(** The body of [for (int i = 0; i < 100; i++)], with the number of
    iterations still to run. *)
Fixpoint try_make_tempdir_loop (remaining : nat) : M (option TempDir.t) :=
  match remaining with
  | O => ret None
  | S remaining =>
      dirname <- detail.make_filename_win32 ;;
      if Str.empty dirname then ret None
      else
        created <- OS.create_directories dirname ;;
        if created : bool then return_TempDir Win32 (TempDir.ctor dirname)
        else
          e <- OS.GetLastError ;;
          if decide (e ≠ ERROR_ALREADY_EXISTS) then ret None
          else try_make_tempdir_loop remaining
  end.

Definition try_make_tempdir (plat : platform) (name_prefix : string)
  : M (option TempDir.t) :=
  match plat with
  | Win32 => try_make_tempdir_loop 100
  | Posix =>
      filename <- detail.make_filename_posix name_prefix ;;
      dirname <- OS.mkdtemp filename ;;
      match dirname with
      | None => ret None
      | Some dirname => return_TempDir plat (TempDir.ctor dirname)
      end
  end.

Definition make_tempdir (plat : platform) (name_prefix : string)
  : M TempDir.t :=
  tempdir <- try_make_tempdir plat name_prefix ;;
  match tempdir with
  | Some tempdir =>
      let '(result, tempdir) := TempDir.move_ctor tempdir in
      TempDir.dtor plat tempdir ;;
      ret result
  | None =>
      description <- OS.strerror_errno ;;
      TORCH_CHECK_false ["Error generating temporary directory: "; description]
  end.

End c10.


(** ** Notions used to state the properties *)

(** The characters the C library writes over the placeholder. *)
Definition alnum (c : ascii) : bool :=
  Str.existsb (λ x, bool_decide (x = c)) OS.letters.

(** The world after a few more calls were recorded and nothing else
    changed. *)
Definition logs (evs : list event) (w : World) : World :=
  mkWorld (fs w) (fds w) (env w) (errno w) (last_error w) (entropy w)
    (tmpnam_answers w) (evs ++ trace w) (refuses w).

(** The value the loop of [make_filename] ends with, read off the
    environment. *)
Fixpoint first_value (variables : list string) (tmp_directory : string)
    (e : gmap string string) : string :=
  match variables with
  | [] => tmp_directory
  | variable :: rest =>
      match Str.c_str <$> e !! variable with
      | Some p => p
      | None => first_value rest tmp_directory e
      end
  end.

(** The pattern [make_filename] builds in a given world. *)
Definition pattern_of (w : World) (name_prefix : string) : string :=
  Path.concat
    (Path.append (first_value c10.detail.env_variables "/tmp" (env w)) name_prefix)
    c10.detail.kRandomPattern.

(** A creation that went through was allowed: the directory of the entry
    exists and the system had nothing against it that would prevent a
    deletion, nor does it change its mind. *)
Definition creation_allowed (w : World) (name : string) (w1 : World) : Prop :=
  fs w !! Path.parent Posix name = Some Dir ∧
  OS.refused Delete name w = None ∧ refuses w1 = refuses w.

(** What a successful exclusive creation does to the world: the name was
    free, it is now an entry of the given kind, and nothing else moved. *)
Definition file_created (w : World) (name : string) (fd : Z) (w1 : World)
  : Prop :=
  fs w !! name = None ∧ fs w1 = <[name := File]> (fs w) ∧
  (fd ∉ fds w) ∧ fds w1 = {[fd]} ∪ fds w ∧ creation_allowed w name w1.

Definition dir_created (w : World) (name : string) (r : Z) (w1 : World)
  : Prop :=
  fs w !! name = None ∧ fs w1 = <[name := Dir]> (fs w) ∧ fds w1 = fds w ∧
  creation_allowed w name w1.

(** What is at [path] is of a kind that can be deleted: a regular file
    or an empty directory. *)
Definition deletable_kind (plat : platform) (w : World) (path : string) : Prop :=
  fs w !! path = Some File ∨
  (fs w !! path = Some Dir ∧ OS.dir_empty plat (fs w) path = true).

(** [std::filesystem::remove] can delete what is at [path]: a regular file
    or an empty directory, named by a path whose final component is its
    name (not the root, not [.] or [..], no trailing separator), that the
    system does not refuse to delete. *)
Definition removable (plat : platform) (w : World) (path : string) : Prop :=
  deletable_kind plat w path ∧
  Path.plain plat path = true ∧
  OS.refused Delete path w = None.

(** The descriptors that are open after a [~TempFile] that got as far as
    [close]. *)
Definition closed (plat : platform) (t : c10.TempFile.t) (s : gset Z) : gset Z :=
  match plat with
  | Posix => if decide (c10.TempFile.fd t >= 0)
             then s ∖ {[c10.TempFile.fd t]} else s
  | Win32 => s
  end.

(** A prefix that is valid as a path component: no separator, no NUL. *)
Definition valid_prefix (P : string) : Prop :=
  Path.has_sep Posix P = false ∧ Str.no_nul P = true.

(** [tmpnam_s] is about to fail, or to hand back an empty name. *)
Definition name_generation_fails (w : World) : Prop :=
  match tmpnam_answers w with
  | Some n :: _ => Str.c_str n = ""
  | _ => True
  end.

(** The names [tmpnam_s] is going to generate. *)
Definition tmpnam_names (w : World) : list string :=
  Str.c_str <$> omap id (tmpnam_answers w).

(** What the system promises about its name generator: on POSIX nothing
    is needed ([mkstemp] creates the file it names); the C library's
    [tmpnam_s] generates a different name at each call. *)
Definition names_never_repeat (plat : platform) (w : World) : Prop :=
  match plat with
  | Posix => True
  | Win32 => NoDup (tmpnam_names w)
  end.

(** The number of calls to [tmpnam_s] in a trace: one per attempt. *)
Fixpoint tmpnam_calls (tr : list event) : nat :=
  match tr with
  | [] => 0
  | ev_tmpnam_s _ :: rest => S (tmpnam_calls rest)
  | _ :: rest => tmpnam_calls rest
  end.

(** [n] calls to [make_tempfile] in a row, every returned value kept
    alive. *)
Fixpoint make_tempfiles (plat : platform) (name_prefix : string) (n : nat)
  : M (list c10.TempFile.t) :=
  match n with
  | O => ret []
  | S n' =>
      t <- c10.make_tempfile plat name_prefix ;;
      ts <- make_tempfiles plat name_prefix n' ;;
      ret (t :: ts)
  end.

(** The values a run returned, none when it raised. *)
Definition returned {A} (o : outcome (list A)) : list A :=
  match o with Ret l => l | _ => [] end.

(** ** The bounded retry of the Windows [try_make_tempdir], as specified *)

(** How one attempt ends. *)
Inductive attempt_result :=
| NameFailed                     (* no candidate name was generated *)
| Created (dirname : string)     (* the directory was created *)
| AlreadyExists                  (* creation failed: the name exists *)
| OtherError.                    (* creation failed for another reason *)

(** One attempt: generate a fresh candidate name, then try to create the
    directory. *)
Definition attempt (w : World) : World * attempt_result :=
  match c10.detail.make_filename_win32 w with
  | (w1, Ret dirname) =>
      if Str.empty dirname then (w1, NameFailed)
      else
        match OS.create_directories dirname w1 with
        | (w2, Ret true) => (w2, Created dirname)
        | (w2, Ret false) =>
            if decide (last_error w2 = ERROR_ALREADY_EXISTS)
            then (w2, AlreadyExists) else (w2, OtherError)
        | (w2, _) => (w2, OtherError)
        end
  | (w1, _) => (w1, NameFailed)
  end.

(** [retry_spec n w w' r]: with [n] attempts allowed, starting in [w], the
    search ends in [w'] with result [r]. A name-generation failure or an
    error other than "already exists" ends it at once with the empty
    result; "already exists" moves on to the next attempt; a created
    directory ends it at once with the owning value; no attempt left is the
    empty result. *)
Inductive retry_spec : nat → World → World → option c10.TempDir.t → Prop :=
| retry_exhausted w :
    retry_spec 0 w w None
| retry_name_failed n w w1 :
    attempt w = (w1, NameFailed) →
    retry_spec (S n) w w1 None
| retry_other_error n w w1 :
    attempt w = (w1, OtherError) →
    retry_spec (S n) w w1 None
| retry_created n w w1 dirname :
    attempt w = (w1, Created dirname) →
    retry_spec (S n) w w1 (Some (c10.TempDir.mk dirname))
| retry_already_exists n w w1 w2 r :
    attempt w = (w1, AlreadyExists) →
    retry_spec n w1 w2 r →
    retry_spec (S n) w w2 r.

(** ** The name pattern, as specified *)

(** The base directory: the value of the first of [TMPDIR], [TMP], [TEMP],
    [TEMPDIR] that is set, be it to the empty string, and ["/tmp"] when
    none is set. *)
Definition base_dir (e : gmap string string) : string :=
  match e !! "TMPDIR" with
  | Some v => Str.c_str v
  | None =>
      match e !! "TMP" with
      | Some v => Str.c_str v
      | None =>
          match e !! "TEMP" with
          | Some v => Str.c_str v
          | None =>
              match e !! "TEMPDIR" with
              | Some v => Str.c_str v
              | None => "/tmp"
              end
          end
      end
  end.

(** The pattern the specification announces: [<base-dir>/<prefix>XXXXXX]. *)
Definition claimed_pattern (e : gmap string string) (name_prefix : string)
  : string :=
  base_dir e +:+ "/" +:+ name_prefix +:+ "XXXXXX".

(** ** Systems to run the code on *)

(** A small POSIX system: root and [/tmp], the three standard descriptors
    open, no temp-directory variable set. *)
Definition posix_world : World :=
  mkWorld {[ "/" := Dir; "/tmp" := Dir ]} {[0; 1; 2]} ∅ 0 0
    [5%N; 5%N; 77777%N; 424242%N] [] [] willing.

(** The same system right after [make_tempfile("torch-file-")], resp.
    [make_tempdir("torch-dir-")]. *)
Definition after_make_tempfile : World :=
  fst (c10.make_tempfile Posix "torch-file-" posix_world).

Definition after_make_tempdir : World :=
  fst (c10.make_tempdir Posix "torch-dir-" posix_world).

(** The same system after [make_tempdir("torch-dir-")] and the creation of
    a file inside the new directory. *)
Definition populated_tempdir : World * outcome c10.TempDir.t :=
  let '(w1, d) := c10.make_tempdir Posix "torch-dir-" posix_world in
  match d with
  | Ret d => (fst (OS.open_excl (c10.TempDir.name d +:+ "/data") w1), Ret d)
  | _ => (w1, d)
  end.

(** A POSIX system whose [TMPDIR] names a directory of the user's own,
    and the same system right after [make_tempfile("torch-file-")]. *)
Definition scratch_world : World :=
  mkWorld {[ "/" := Dir; "/home" := Dir; "/home/user" := Dir;
             "/home/user/scratch" := Dir ]}
    {[0; 1; 2]} {[ "TMPDIR" := "/home/user/scratch" ]} 0 0
    [5%N; 77777%N] [] [] willing.

Definition in_scratch : World :=
  fst (c10.make_tempfile Posix "torch-file-" scratch_world).

(** What the system refuses once the write permission on that directory
    has been taken away ([chmod a-w]): to create or delete its entries. *)
Definition locked_scratch (p : string) : option refusal :=
  if decide (Path.parent Posix p = "/home/user/scratch")
  then Some write_denied else None.

Definition in_locked_scratch : World := with_refuses locked_scratch in_scratch.

(** A path below the regular file that [make_tempfile("torch-file-")]
    makes on the small system. *)
Definition below_a_file : string := "/tmp/torch-file-faaaaa/child".

(** A POSIX system whose [TMPDIR] names a directory that does not exist. *)
Definition lost_tmpdir_world : World :=
  mkWorld {[ "/" := Dir; "/tmp" := Dir ]} {[0; 1; 2]}
    {[ "TMPDIR" := "/nonexistent" ]} 0 0 [5%N; 77777%N] [] [] willing.

(** A POSIX system whose [TMPDIR] is set to the empty string, [TMP] being
    set as well. *)
Definition empty_tmpdir_world : World :=
  mkWorld {[ "/" := Dir; "/tmp" := Dir; "/var/tmp" := Dir; "." := Dir ]}
    {[0; 1; 2]} {[ "TMPDIR" := ""; "TMP" := "/var/tmp" ]} 0 0
    [5%N; 77777%N] [] [] willing.

(** A POSIX system with a long supply of random draws. *)
Definition busy_world : World :=
  mkWorld {[ "/" := Dir; "/tmp" := Dir ]} {[0; 1; 2]} ∅ 0 0
    ((λ i, N.of_nat (i / 2)) <$> seq 0 500) [] [] willing.

(** A Windows system: [tmpnam_s] is about to generate a name that is free. *)
Definition win32_world : World :=
  mkWorld {[ "." := Dir; "C:" := Dir; "C:\Temp" := Dir ]} ∅ ∅ 0 0 []
    [Some "C:\Temp\s1a4."; Some "C:\Temp\s1a4.1"] [] willing.

(** A system on which name generation fails, and one on which the
    generated name cannot be a directory because its parent is a file. *)
Definition no_names_world : World :=
  mkWorld {[ "." := Dir ]} ∅ ∅ 0 0 [] [None; Some "C:\Temp\s1a4."] []
    willing.

Definition blocked_world : World :=
  mkWorld {[ "." := Dir; "C:" := Dir; "C:\Temp" := File ]} ∅ ∅ 0 0 []
    [Some "C:\Temp\s1a4."; Some "C:\Temp\s1a4.1"] [] willing.

(** A Windows system in which the first [n] names [tmpnam_s] generates are
    taken already. *)
Definition taken_name (i : nat) : string :=
  "C:\Temp\s" +:+ OS.fill 3 (N.of_nat i).

Definition crowded_world (n : nat) : World :=
  mkWorld
    (list_to_map ((λ i, (taken_name i, Dir)) <$> seq 0 n)
       ∪ {[ "." := Dir; "C:" := Dir; "C:\Temp" := Dir ]})
    ∅ ∅ 0 0 [] ((λ i, Some (taken_name i)) <$> seq 0 (S n)) [] willing.

(** ** Further notions: the tests, sequences of directories, aliasing *)


(** [std::filesystem::is_regular_file(p)] and [is_directory(p)] *)
Definition is_regular_file (p : string) : M bool :=
  syscall (λ w, (w, bool_decide (fs w !! Str.c_str p = Some File))).


(** [s.find(t) != std::string::npos] *)
Fixpoint starts_with_string (t s : string) : bool :=
  match t, s with
  | EmptyString, _ => true
  | String a t', String b s' => bool_decide (a = b) && starts_with_string t' s'
  | String _ _, EmptyString => false
  end.

Fixpoint string_find (s t : string) : bool :=
  starts_with_string t s ||
  match s with
  | EmptyString => false
  | String _ s' => string_find s' t
  end.

(** How a gtest body ends: all assertions held, or the assertion at a
    line of the test file failed (the body returns there, destructors
    running as for any return). *)
Inductive test_result := Passed | Failed (line : nat).

(** [TEST(TempFileTest, MatchesExpectedPattern)] *)
Definition TempFileTest_MatchesExpectedPattern (plat : platform) : M test_result :=
  pattern <- c10.make_tempfile plat "test-pattern-" ;;
  regular <- is_regular_file (c10.TempFile.name pattern) ;;
  if negb regular then
    c10.TempFile.dtor plat pattern ;; ret (Failed 7)
  else
    match plat with
    | Posix =>
        if negb (string_find (c10.TempFile.name pattern) "test-pattern-") then
          c10.TempFile.dtor plat pattern ;; ret (Failed 9)
        else
          c10.TempFile.dtor plat pattern ;; ret Passed
    | Win32 =>
        c10.TempFile.dtor plat pattern ;; ret Passed
    end.



(** [n] calls to [make_tempdir] in a row, every returned value kept alive. *)
Fixpoint make_tempdirs (plat : platform) (name_prefix : string) (n : nat)
  : M (list c10.TempDir.t) :=
  match n with
  | O => ret []
  | S n' =>
      d <- c10.make_tempdir plat name_prefix ;;
      ds <- make_tempdirs plat name_prefix n' ;;
      ret (d :: ds)
  end.

(** *** Move assignment on objects in memory

    [TempFile::operator=(TempFile&& other)] run statement by statement on
    a store of objects, so that [this] and [other] may be one object.
    What a [std::string] holds after being move-assigned to itself is left
    to the library: [self_moved] stands for it. *)
Definition set_fd (fd : Z) (t : c10.TempFile.t) : c10.TempFile.t :=
  c10.TempFile.mk fd (c10.TempFile.name t).

Definition set_name (name : string) (t : c10.TempFile.t) : c10.TempFile.t :=
  c10.TempFile.mk (c10.TempFile.fd t) name.

Definition fd_at (a : nat) (h : gmap nat c10.TempFile.t) : Z :=
  from_option c10.TempFile.fd (-1) (h !! a).

Definition name_at (a : nat) (h : gmap nat c10.TempFile.t) : string :=
  from_option c10.TempFile.name "" (h !! a).

(** [name = std::move(other.name)] on the store *)
Definition string_move_assign_at (self_moved : string → string)
    (this other : nat) (h : gmap nat c10.TempFile.t) : gmap nat c10.TempFile.t :=
  if decide (this = other) then
    alter (set_name (self_moved (name_at this h))) this h
  else
    let '(received, remains) := c10.string_move (name_at other h) in
    alter (set_name received) this (alter (set_name remains) other h).

Definition move_assign_at (self_moved : string → string)
    (this other : nat) (h : gmap nat c10.TempFile.t) : gmap nat c10.TempFile.t :=
  let h := alter (set_fd (fd_at other h)) this h in        (* fd = other.fd; *)
  let h := alter (set_fd (-1)) other h in                  (* other.fd = -1; *)
  let h := string_move_assign_at self_moved this other h in
                                               (* name = std::move(other.name); *)
  let h := alter (set_name "") other h in                  (* other.name.clear(); *)
  h.

(** [TempDir::operator=(TempDir&& other)] on a store of [TempDir]
    objects, in the same way. *)
Definition dir_name_at (a : nat) (h : gmap nat c10.TempDir.t) : string :=
  from_option c10.TempDir.name "" (h !! a).

Definition set_dir_name (name : string) (d : c10.TempDir.t) : c10.TempDir.t :=
  c10.TempDir.mk name.

Definition path_move_assign_at (self_moved : string → string)
    (this other : nat) (h : gmap nat c10.TempDir.t) : gmap nat c10.TempDir.t :=
  if decide (this = other) then
    alter (set_dir_name (self_moved (dir_name_at this h))) this h
  else
    let '(received, remains) := c10.string_move (dir_name_at other h) in
    alter (set_dir_name received) this (alter (set_dir_name remains) other h).

Definition TempDir_move_assign_at (self_moved : string → string)
    (this other : nat) (h : gmap nat c10.TempDir.t) : gmap nat c10.TempDir.t :=
  let h := path_move_assign_at self_moved this other h in
                                               (* name = std::move(other.name); *)
  let h := alter (set_dir_name "") other h in              (* other.name.clear(); *)
  h.

(** The variables [make_filename] asks the environment for: those of the
    list up to and including the first one that is set. *)
Fixpoint consulted (variables : list string) (e : gmap string string)
  : list string :=
  match variables with
  | [] => []
  | variable :: rest =>
      match e !! variable with
      | Some _ => [variable]
      | None => variable :: consulted rest e
      end
  end.

Definition is_X (c : ascii) : bool := bool_decide (c = "X"%char).

(** * Properties *)

(** ** Strings *)

Module StrFacts.
Import Str.

Lemma app_nil_l (s : string) : "" +:+ s = s.
Proof. reflexivity. Qed.

Lemma app_cons (c : ascii) (a b : string) :
  String c a +:+ b = String c (a +:+ b).
Proof. reflexivity. Qed.

Ltac norm := rewrite ?app_nil_l, ?app_cons; simpl.

Lemma app_nil_r (s : string) : s +:+ "" = s.
Proof. induction s as [|c s IH]; norm; [done | by rewrite IH]. Qed.

Lemma app_assoc (a b c : string) : (a +:+ b) +:+ c = a +:+ b +:+ c.
Proof. induction a as [|x a IH]; norm; [done | by rewrite IH]. Qed.

Lemma length_app (a b : string) :
  String.length (a +:+ b) = (String.length a + String.length b)%nat.
Proof. induction a as [|x a IH]; norm; [done | by rewrite IH]. Qed.

Lemma forallb_app p (a b : string) :
  forallb p (a +:+ b) = forallb p a && forallb p b.
Proof.
  induction a as [|x a IH]; norm; [done |].
  rewrite IH. by destruct (p x).
Qed.

Lemma existsb_app p (a b : string) :
  existsb p (a +:+ b) = existsb p a || existsb p b.
Proof.
  induction a as [|x a IH]; norm; [done |].
  rewrite IH. by destruct (p x).
Qed.

Lemma c_str_after (s : string) : c_str s +:+ after_c_str s = s.
Proof.
  induction s as [|c s IH]; simpl; [done |].
  destruct (decide (c = NUL)); norm; [done | by rewrite IH].
Qed.

Lemma c_str_no_nul (s : string) : no_nul (c_str s) = true.
Proof.
  unfold no_nul. induction s as [|c s IH]; simpl; [done |].
  destruct (decide (c = NUL)); simpl; [done |].
  rewrite bool_decide_eq_true_2 by done. exact IH.
Qed.

Lemma c_str_id (s : string) : no_nul s = true → c_str s = s.
Proof.
  unfold no_nul. induction s as [|c s IH]; simpl; [done |].
  intros [Hc Hs]%andb_prop. apply bool_decide_eq_true in Hc.
  destruct (decide (c = NUL)); [done |]. by rewrite IH.
Qed.

Lemma after_c_str_id (s : string) : no_nul s = true → after_c_str s = "".
Proof.
  unfold no_nul. induction s as [|c s IH]; simpl; [done |].
  intros [Hc Hs]%andb_prop. apply bool_decide_eq_true in Hc.
  destruct (decide (c = NUL)); [done |]. by apply IH.
Qed.

(** Text written before the first NUL of a buffer is what a C API reads
    back from it. *)
Lemma c_str_app_after (a s : string) :
  no_nul a = true → c_str (a +:+ after_c_str s) = a.
Proof.
  unfold no_nul. intros Ha. induction a as [|c a IH]; norm.
  - induction s as [|c s IH]; simpl; [done |].
    destruct (decide (c = NUL)) as [->|]; [done | exact IH].
  - simpl in Ha. apply andb_prop in Ha as [Hc Ha].
    apply bool_decide_eq_true in Hc.
    destruct (decide (c = NUL)); [done |]. by rewrite IH.
Qed.

Lemma strip_suffix_Some (sfx s stem : string) :
  strip_suffix sfx s = Some stem → s = stem +:+ sfx.
Proof.
  revert stem. induction s as [|c s IH]; intros stem; simpl.
  - destruct (decide ("" = sfx)) as [<-|]; [|done]. by intros [= <-].
  - destruct (decide (String c s = sfx)) as [<-|]; [by intros [= <-] |].
    destruct (strip_suffix sfx s) as [stem'|] eqn:E; [|done].
    intros [= <-]. norm. by rewrite (IH stem').
Qed.

Lemma strip_suffix_app (sfx stem : string) :
  strip_suffix sfx (stem +:+ sfx) = Some stem.
Proof.
  induction stem as [|c stem IH]; norm.
  - destruct sfx; simpl; [done |]. by destruct (decide _).
  - destruct (decide (String c (stem +:+ sfx) = sfx)) as [E|].
    + apply (f_equal String.length) in E. simpl in E.
      rewrite length_app in E. lia.
    + by rewrite IH.
Qed.

Lemma contains_app_l (a t : string) : contains (a +:+ t) t.
Proof. exists a, "". by rewrite app_nil_r. Qed.

Lemma contains_app_r (t b : string) : contains (t +:+ b) t.
Proof. by exists "", b. Qed.

Lemma empty_true (s : string) : empty s = true ↔ s = "".
Proof. by destruct s. Qed.

Lemma empty_false (s : string) : empty s = false ↔ s ≠ "".
Proof. by destruct s. Qed.

End StrFacts.

(** ** Paths *)

Module PathFacts.
Import Str StrFacts.

Lemma before_last_sep_length plat (p : string) :
  p ≠ "" → (String.length (Path.before_last_sep plat p) < String.length p)%nat.
Proof.
  induction p as [|c r IH]; [done |]. intros _. simpl.
  destruct (Path.has_sep plat r) eqn:Hr; simpl; [|lia].
  assert (r ≠ "") as Hne by (by intros ->). specialize (IH Hne). lia.
Qed.

(** Only the root and the working directory are their own parents. *)
Lemma own_parent plat (p : string) :
  Path.parent plat p = p → p = "/" ∨ p = ".".
Proof.
  unfold Path.parent. destruct (Path.has_sep plat p) eqn:Hs; [|by right].
  destruct (empty (Path.before_last_sep plat p)); [by left |].
  intros E. assert (p ≠ "") as Hne by (by intros ->).
  pose proof (before_last_sep_length plat p Hne) as Hlt.
  rewrite E in Hlt. lia.
Qed.

Lemma plain_spec plat (p : string) :
  Path.plain plat p = true →
  Path.parent plat p ≠ p ∧ Path.dots plat p = false.
Proof.
  unfold Path.plain. intros [H1 H2]%negb_true_iff%orb_false_elim.
  split; [|done]. intros [->| ->]%own_parent.
  - by destruct plat.
  - unfold Path.dots in H2. by destruct plat.
Qed.

(** After any text, a text without separator ends the final component. *)
Lemma filename_app_nosep plat (a b : string) :
  Path.has_sep plat b = false → ∃ a', Path.filename plat (a +:+ b) = a' +:+ b.
Proof.
  intros Hb. induction a as [|c a IH].
  - exists "". rewrite !app_nil_l. destruct b as [|x b]; [done |]. simpl.
    unfold Path.has_sep in Hb. simpl in Hb.
    apply orb_false_elim in Hb as [Hx Hb]. unfold Path.has_sep. by rewrite Hb, Hx.
  - rewrite app_cons. simpl. destruct (Path.has_sep plat (a +:+ b)); [done |].
    destruct (Path.is_sep plat c); [by exists a | by exists (String c a)].
Qed.

(** A name of some length after its last separator is plain. *)
Lemma plain_app plat (a b : string) :
  Path.has_sep plat b = false → (3 ≤ String.length b)%nat →
  Path.plain plat (a +:+ b) = true.
Proof.
  intros Hb Hlen. destruct (filename_app_nosep plat a b Hb) as [a' E].
  assert (3 ≤ String.length (Path.filename plat (a +:+ b)))%nat as Hl.
  { rewrite E, length_app. lia. }
  unfold Path.plain, Path.dots. apply negb_true_iff.
  destruct (Path.filename plat (a +:+ b)) as [|x [|y [|z r]]]; simpl in Hl;
    try lia.
  rewrite !bool_decide_eq_false_2; done.
Qed.

End PathFacts.

(** ** The operating system *)

Module OSFacts.
Import Str StrFacts OS.

Lemma get_existsb (n : nat) (s : string) (c : ascii) :
  String.get n s = Some c → existsb (λ x, bool_decide (x = c)) s = true.
Proof.
  revert n. induction s as [|x s IH]; intros n; simpl; [by destruct n |].
  destruct n as [|n].
  - intros [= ->]. by rewrite bool_decide_eq_true_2.
  - intros H. rewrite (IH n H). by destruct (bool_decide _).
Qed.

Lemma letter_alnum (i : N) : alnum (letter i) = true.
Proof.
  unfold letter.
  destruct (String.get (N.to_nat i) letters) as [c|] eqn:E.
  - change (alnum c = true). exact (get_existsb _ _ _ E).
  - reflexivity.
Qed.

Lemma alnum_plain (c : ascii) :
  alnum c = true →
  c ≠ NUL ∧ Path.is_sep Posix c = false ∧ Path.is_sep Win32 c = false.
Proof.
  unfold alnum, letters. simpl. intros H.
  repeat (apply orb_prop in H as [H|H];
          [apply bool_decide_eq_true in H; subst c; by vm_compute |]).
  discriminate.
Qed.

Lemma fill_S (n : nat) (v : N) :
  fill (S n) v = String (letter (v mod 62)%N) (fill n (v / 62)%N).
Proof. reflexivity. Qed.

Lemma fill_length (n : nat) (v : N) : String.length (fill n v) = n.
Proof.
  revert v. induction n as [|n IH]; intros v; [done |].
  rewrite fill_S. simpl. by rewrite IH.
Qed.

Lemma fill_alnum (n : nat) (v : N) : forallb alnum (fill n v) = true.
Proof.
  revert v. induction n as [|n IH]; intros v; [done |].
  rewrite fill_S. simpl. by rewrite letter_alnum, IH.
Qed.

Lemma forallb_impl (p q : ascii → bool) (s : string) :
  (∀ c, p c = true → q c = true) → forallb p s = true → forallb q s = true.
Proof.
  intros Hpq. induction s as [|c s IH]; simpl; [done |].
  intros [Hc Hs]%andb_prop. by rewrite (Hpq c Hc), IH.
Qed.

Lemma fill_no_nul (n : nat) (v : N) : no_nul (fill n v) = true.
Proof.
  unfold no_nul. apply (forallb_impl alnum), fill_alnum.
  intros c Hc. apply bool_decide_eq_true. by apply alnum_plain.
Qed.

Lemma existsb_false_forallb (p : ascii → bool) (s : string) :
  forallb (λ c, negb (p c)) s = true → existsb p s = false.
Proof.
  induction s as [|c s IH]; simpl; [done |].
  intros [Hc Hs]%andb_prop. rewrite (IH Hs). by destruct (p c).
Qed.

Lemma fill_no_sep (plat : platform) (n : nat) (v : N) :
  Path.has_sep plat (fill n v) = false.
Proof.
  apply existsb_false_forallb, (forallb_impl alnum), fill_alnum.
  intros c Hc. destruct (alnum_plain c Hc) as (_ & Hp & Hw).
  destruct plat; [by rewrite Hp | by rewrite Hw].
Qed.

(** *** Descriptors *)

Lemma lowest_free_spec (s : gset Z) (fuel : nat) (k : Z) :
  k ≤ lowest_free s fuel k ∧
  (lowest_free s fuel k ∈ s →
   ∀ j, k ≤ j < k + Z.of_nat fuel → j ∈ s).
Proof.
  revert k. induction fuel as [|fuel IH]; intros k; simpl.
  - split; [lia |]. intros _ j Hj. lia.
  - destruct (decide (k ∈ s)) as [Hk|Hk].
    + destruct (IH (k + 1)) as [Hle Hin]. split; [lia |].
      intros Hr j Hj. destruct (decide (j = k)) as [->|]; [done |].
      apply (Hin Hr). lia.
    + split; [lia | done].
Qed.

Lemma next_fd_nonneg (s : gset Z) : 0 ≤ next_fd s.
Proof. apply lowest_free_spec. Qed.

Lemma lowest_free_full (s : gset Z) (fuel : nat) (k : Z) :
  lowest_free s fuel k ∈ s → lowest_free s fuel k = k + Z.of_nat fuel.
Proof.
  revert k. induction fuel as [|fuel IH]; intros k; simpl; [lia |].
  destruct (decide (k ∈ s)); [|done].
  intros H. rewrite (IH _ H). lia.
Qed.

Lemma next_fd_fresh (s : gset Z) : next_fd s ∉ s.
Proof.
  unfold next_fd. intros Hin.
  pose proof (lowest_free_full _ _ _ Hin) as Heq.
  destruct (lowest_free_spec s (size s) 0) as [_ Hall].
  specialize (Hall Hin).
  assert (list_to_set (seqZ 0 (Z.of_nat (S (size s)))) ⊆ s) as Hsub.
  { intros j Hj. apply elem_of_list_to_set, elem_of_seqZ in Hj.
    destruct (decide (j = Z.of_nat (size s))) as [->|].
    - rewrite Heq in Hin. by rewrite Z.add_0_l in Hin.
    - apply Hall. lia. }
  apply subseteq_size in Hsub.
  rewrite size_list_to_set in Hsub by apply NoDup_seqZ.
  rewrite length_seqZ in Hsub. lia.
Qed.

End OSFacts.

(** ** Running the calls *)

Module Run.
Import Str StrFacts OS OSFacts.

Lemma logs_nil (w : World) : logs [] w = w.
Proof. by destruct w. Qed.

Lemma logs_log (e : event) (evs : list event) (w : World) :
  logs evs (log e w) = logs (evs ++ [e]) w.
Proof. unfold logs, log. simpl. by rewrite <- (assoc_L (++)). Qed.

Lemma log_logs (e : event) (evs : list event) (w : World) :
  log e (logs evs w) = logs (e :: evs) w.
Proof. reflexivity. Qed.

Lemma logs_logs (evs1 evs2 : list event) (w : World) :
  logs evs1 (logs evs2 w) = logs (evs1 ++ evs2) w.
Proof. unfold logs. simpl. by rewrite (assoc_L (++)). Qed.

Lemma first_set_run (variables : list string) (d : string) (w : World) :
  ∃ evs, c10.detail.first_set variables d w
         = (logs evs w, Ret (first_value variables d (env w))).
Proof.
  revert w. induction variables as [|v rest IH]; intros w; simpl.
  - exists []. by rewrite logs_nil.
  - unfold bind, getenv, syscall. simpl.
    destruct (env w !! v) as [p|] eqn:E; simpl.
    + by exists [ev_getenv v].
    + destruct (IH (log (ev_getenv v) w)) as [evs ->].
      exists (evs ++ [ev_getenv v]). by rewrite logs_log.
Qed.

Lemma make_filename_posix_run (name_prefix : string) (w : World) :
  ∃ evs, c10.detail.make_filename_posix name_prefix w
         = (logs evs w,
            Ret (Path.concat
                   (Path.append
                      (first_value c10.detail.env_variables "/tmp" (env w))
                      name_prefix)
                   c10.detail.kRandomPattern)).
Proof.
  unfold c10.detail.make_filename_posix, bind.
  destruct (first_set_run c10.detail.env_variables "/tmp" w) as [evs ->].
  by exists evs.
Qed.

(** *** Destroying a moved-from object *)

Lemma TempFile_dtor_empty (plat : platform) (fd : Z) (w : World) :
  c10.TempFile.dtor plat (c10.TempFile.mk fd "") w = (w, Ret tt).
Proof. reflexivity. Qed.

Lemma TempDir_dtor_empty (plat : platform) (w : World) :
  c10.TempDir.dtor plat (c10.TempDir.mk "") w = (w, Ret tt).
Proof. reflexivity. Qed.

Lemma return_TempFile_run (plat : platform) (t : c10.TempFile.t) (w : World) :
  c10.return_TempFile plat t w = (w, Ret (Some t)).
Proof. by destruct t. Qed.

Lemma return_TempDir_run (plat : platform) (t : c10.TempDir.t) (w : World) :
  c10.return_TempDir plat t w = (w, Ret (Some t)).
Proof. by destruct t. Qed.

(** *** Unique names *)

Section try_names.
Variable tryfunc : string → World → World * Z.
Variable Q : World → string → Z → World → Prop.
Hypothesis Htry : ∀ name w w1 r,
  tryfunc name w = (w1, r) →
  (r < 0 ∧ fs w1 = fs w ∧ fds w1 = fds w ∧ refuses w1 = refuses w) ∨
  (0 ≤ r ∧ Q w name r w1).
Hypothesis HQ : ∀ w w' name r w1,
  fs w' = fs w → fds w' = fds w → refuses w' = refuses w →
  Q w' name r w1 → Q w name r w1.

Lemma try_names_spec stem draws w w1 r name :
  try_names tryfunc stem draws w = (w1, (r, name)) →
  (r = -1 ∧ fs w1 = fs w ∧ fds w1 = fds w ∧ refuses w1 = refuses w) ∨
  (0 ≤ r ∧ ∃ v, name = stem +:+ fill 6 v ∧ Q w name r w1).
Proof.
  revert w. induction draws as [|v rest IH]; intros w; cbn [try_names].
  - intros [= <- <- <-]. by left.
  - destruct (tryfunc (stem +:+ fill 6 v) (with_entropy rest w))
      as [w2 r2] eqn:E.
    apply Htry in E as [(Hr & Hfs & Hfds & Href)|[Hr HQ2]].
    + destruct (decide (0 ≤ r2)); [lia |].
      destruct (decide (errno w2 = EEXIST)).
      * intros H.
        apply IH in H as [(-> & Hfs' & Hfds' & Href')|(Hr' & v' & -> & HQ')].
        -- left. by rewrite Hfs', Hfds', Href', Hfs, Hfds, Href.
        -- right. split; [done |]. exists v'. split; [done |].
           by apply (HQ w w2).
      * intros [= <- <- <-]. left. by rewrite Hfs, Hfds, Href.
    + destruct (decide (0 ≤ r2)); [|lia].
      intros [= <- <- <-]. right. split; [done |]. exists v.
      split; [done |]. by apply (HQ w (with_entropy rest w)).
Qed.

Lemma gen_tempname_spec template w w1 r name :
  gen_tempname tryfunc template w = (w1, (r, name)) →
  (r = -1 ∧ fs w1 = fs w ∧ fds w1 = fds w ∧ refuses w1 = refuses w) ∨
  (0 ≤ r ∧ ∃ stem v, template = stem +:+ placeholder ∧
             name = stem +:+ fill 6 v ∧ Q w name r w1).
Proof.
  unfold gen_tempname.
  destruct (strip_suffix placeholder template) as [stem|] eqn:E.
  - apply strip_suffix_Some in E. intros H.
    apply try_names_spec in H as [?|(Hr & v & -> & HQ')]; [by left |].
    right. split; [done |]. by exists stem, v.
  - intros [= <- <- <-]. by left.
Qed.
End try_names.

Lemma refused_None (a : access) path w :
  refuses w path = None → refused a path w = None.
Proof. unfold refused. by intros ->. Qed.

(** What stands in the way of a deletion stands in the way of a
    creation. *)
Lemma refused_create_delete (kind : node) path w :
  refused (Create kind) path w = None → refused Delete path w = None.
Proof.
  unfold refused. destruct (refuses w path) as [r|]; [|done].
  by destruct r, kind.
Qed.

Lemma refused_same (a : access) path w w' :
  refuses w' = refuses w → refused a path w' = refused a path w.
Proof. unfold refused. by intros ->. Qed.

Lemma errno_of_not_ENOENT (r : refusal) : errno_of r ≠ ENOENT.
Proof. by destruct r. Qed.

(** An entry can be created only where nothing is, in a directory that
    exists, under a name of admissible length, when the system does not
    refuse. *)
Lemma reach_error_None plat path w :
  reach_error plat path w = None →
  fs w !! Path.parent plat path = Some Dir ∧
  Z.of_nat (String.length path) < PATH_MAX ∧
  Z.of_nat (String.length (Path.filename plat path)) ≤ NAME_MAX.
Proof.
  unfold reach_error. destruct (empty path); [done |].
  case_bool_decide; [done |].
  destruct (fs w !! Path.parent plat path) as [[]|]; [done | |done].
  case_bool_decide; [done |]. intros _. split_and!; [done | lia | lia].
Qed.

Lemma create_error_None plat kind path w :
  create_error plat kind path w = None →
  fs w !! path = None ∧
  fs w !! Path.parent plat path = Some Dir ∧ refused Delete path w = None.
Proof.
  unfold create_error. destruct (empty path); [done |].
  destruct (refused Lookup path w); [done |].
  destruct (fs w !! path); [done |].
  destruct (reach_error plat path w) eqn:E; [done |].
  destruct (Path.dots plat path); [done |].
  destruct (refused (Create kind) path w) eqn:Hc; [done |]. intros _.
  apply refused_create_delete in Hc.
  by apply reach_error_None in E as (? & _).
Qed.

Lemma open_excl_spec name w w1 r :
  open_excl name w = (w1, r) →
  (r < 0 ∧ fs w1 = fs w ∧ fds w1 = fds w ∧ refuses w1 = refuses w) ∨
  (0 ≤ r ∧ file_created w name r w1).
Proof.
  unfold open_excl.
  destruct (create_error Posix File name w) as [e|] eqn:E.
  - intros [= <- <-]. left. split; [lia | done].
  - intros [= <- <-]. right. split; [apply next_fd_nonneg |].
    apply create_error_None in E as (? & ? & ?).
    unfold file_created, creation_allowed. split_and!; simpl; try done.
    apply next_fd_fresh.
Qed.

Lemma mkdir_spec name w w1 r :
  mkdir name w = (w1, r) →
  (r < 0 ∧ fs w1 = fs w ∧ fds w1 = fds w ∧ refuses w1 = refuses w) ∨
  (0 ≤ r ∧ dir_created w name r w1).
Proof.
  unfold mkdir.
  destruct (create_error Posix Dir name w) as [e|] eqn:E.
  - intros [= <- <-]. left. split; [lia | done].
  - intros [= <- <-]. right. split; [lia |].
    apply create_error_None in E as (? & ? & ?).
    unfold dir_created, creation_allowed. split_and!; simpl; done.
Qed.

Lemma created_transfers w w' name w1 :
  fs w' = fs w → refuses w' = refuses w →
  creation_allowed w' name w1 → creation_allowed w name w1.
Proof.
  unfold creation_allowed. intros -> Href.
  by rewrite (refused_same _ _ _ _ Href), Href.
Qed.

Lemma mkstemp_spec buf w w1 fd buf1 :
  mkstemp buf w = (w1, Ret (fd, buf1)) →
  (fd = -1 ∧ fs w1 = fs w ∧ fds w1 = fds w) ∨
  (0 ≤ fd ∧ ∃ stem v,
      c_str buf = stem +:+ placeholder ∧
      buf1 = (stem +:+ fill 6 v) +:+ after_c_str buf ∧
      file_created w (stem +:+ fill 6 v) fd w1).
Proof.
  unfold mkstemp, syscall.
  destruct (gen_tempname open_excl (c_str buf) w) as [w2 [r name]] eqn:E.
  intros [= <- <- <-].
  apply (gen_tempname_spec open_excl file_created) in E
    as [(-> & Hfs & Hfds & _)|(Hr & stem & v & Ht & -> & HQ)].
  - by left.
  - right. split; [done |]. by exists stem, v.
  - apply open_excl_spec.
  - unfold file_created. intros ????? Hfs Hfds Href. rewrite Hfs, Hfds.
    intros (? & ? & ? & ? & ?). split_and!; try done.
    by eapply created_transfers.
Qed.

Lemma mkdtemp_spec buf w w1 r :
  mkdtemp buf w = (w1, Ret r) →
  (r = None ∧ fs w1 = fs w ∧ fds w1 = fds w) ∨
  (∃ stem v,
      c_str buf = stem +:+ placeholder ∧
      r = Some (stem +:+ fill 6 v) ∧
      dir_created w (stem +:+ fill 6 v) 0 w1).
Proof.
  unfold mkdtemp, syscall.
  destruct (gen_tempname mkdir (c_str buf) w) as [w2 [r2 name]] eqn:E.
  intros [= <- <-].
  apply (gen_tempname_spec mkdir dir_created) in E
    as [(-> & Hfs & Hfds & _)|(Hr & stem & v & Ht & -> & HQ)].
  - by left.
  - right. exists stem, v. by rewrite decide_True.
  - apply mkdir_spec.
  - unfold dir_created. intros ????? Hfs Hfds Href. rewrite Hfs, Hfds.
    intros (? & ? & ? & ?). split_and!; try done.
    by eapply created_transfers.
Qed.

End Run.

(** ** Destruction *)

Module Destruction.
Import Str StrFacts PathFacts OS OSFacts Run.

Lemma dots_error_not_ENOENT plat path : dots_error plat path ≠ ENOENT.
Proof. unfold dots_error. by destruct (decide _). Qed.

(** [remove] goes through only on a file or an empty directory, and on
    all that is [removable]; the error "nothing there" is for paths that
    are not entries. *)
Lemma remove_error_spec plat path w :
  match remove_error plat path w with
  | None => deletable_kind plat w path
  | Some e => ¬ removable plat w path ∧ (e = ENOENT → fs w !! path = None)
  end.
Proof.
  unfold remove_error, removable, deletable_kind.
  destruct (fs w !! path) as [kind|] eqn:E.
  - destruct (decide (Path.parent plat path = path)) as [Hp|Hp].
    { split; [|by destruct (decide (path = "."))].
      by intros (_ & [? _]%plain_spec & _). }
    destruct (match plat with
              | Posix => Path.dots Posix path
              | Win32 => false
              end) eqn:Hd.
    { split; [|intros He; by destruct (dots_error_not_ENOENT plat path)].
      intros (_ & [_ Hpl]%plain_spec & _). destruct plat; congruence. }
    destruct (refused Delete path w) as [r|] eqn:Hr.
    { split; [by intros (_ & _ & ?) |]. intros He.
      by destruct (errno_of_not_ENOENT r). }
    destruct kind.
    + by left.
    + destruct (dir_empty plat (fs w) path) eqn:Hde.
      * by right.
      * split; [|done]. intros ([?|[_ ?]] & _); congruence.
  - assert (¬ ((None = Some File
                ∨ None = Some Dir ∧ dir_empty plat (fs w) path = true)
               ∧ Path.plain plat path = true
               ∧ refused Delete path w = None)) as Hn.
    { by intros ([?|[? _]] & _). }
    destruct plat; [|done].
    destruct (refused Lookup path w); [done |].
    destruct (reach_error Posix path w); [done |].
    by destruct (Path.dots Posix path).
Qed.

Lemma remove_error_removable plat path w :
  removable plat w path → remove_error plat path w = None.
Proof.
  intros Hrm. pose proof (remove_error_spec plat path w) as H.
  destruct (remove_error plat path w); [by destruct H | done].
Qed.

(** The three ways [std::filesystem::remove] ends. *)
Lemma fs_remove_run plat p w :
  ∃ w1 o, fs_remove plat p w = (w1, o) ∧
    fds w1 = fds w ∧ refuses w1 = refuses w ∧
    ((deletable_kind plat w (c_str p) ∧ o = Ret true ∧
      fs w1 = delete (c_str p) (fs w)) ∨
     (¬ removable plat w (c_str p) ∧ fs w !! c_str p = None ∧
      o = Ret false ∧ fs w1 = fs w) ∨
     (¬ removable plat w (c_str p) ∧ (∃ e, o = Throw e) ∧ fs w1 = fs w)).
Proof.
  unfold fs_remove. pose proof (remove_error_spec plat (c_str p) w) as H.
  destruct (remove_error plat (c_str p) w) as [e|].
  - destruct H as [Hn He]. destruct (decide (e = ENOENT)) as [Heq|Hne].
    + eexists _, _. split; [done |]. split_and!; try done.
      right. left. split_and!; try done. by apply He.
    + eexists _, _. split; [done |]. split_and!; try done.
      right. right. split_and!; try done. by eexists.
  - eexists _, _. split; [done |]. split_and!; try done. by left.
Qed.

Lemma fs_remove_removable plat p w :
  removable plat w (c_str p) →
  ∃ w1, fs_remove plat p w = (w1, Ret true) ∧
        fs w1 = delete (c_str p) (fs w) ∧ fds w1 = fds w.
Proof.
  intros Hrm.
  destruct (fs_remove_run plat p w)
    as (w1 & o & -> & Hfds & _ & [(_ & -> & Hfs)|[(? & _)|(? & _)]]); [|done..].
  by exists w1.
Qed.

(** On Windows a path that is not an entry is reported as not found. *)
Lemma fs_remove_missing_win32 p w :
  fs w !! c_str p = None →
  ∃ w1, fs_remove Win32 p w = (w1, Ret false) ∧ fs w1 = fs w ∧ fds w1 = fds w.
Proof.
  intros Hnone. unfold fs_remove, remove_error. rewrite Hnone.
  rewrite decide_True by done. by eexists.
Qed.

Lemma close_run plat (t : c10.TempFile.t) w :
  ∃ w1, (match plat with
         | Posix =>
             if decide (c10.TempFile.fd t >= 0)
             then (close (c10.TempFile.fd t) ;; ret tt)%cxx
             else ret tt
         | Win32 => ret tt
         end) w = (w1, Ret tt) ∧
        fs w1 = fs w ∧ fds w1 = closed plat t (fds w).
Proof.
  unfold closed. destruct plat; [|by eexists].
  destruct (decide (c10.TempFile.fd t >= 0)) as [Hfd|Hfd]; [|by eexists].
  unfold bind, close, syscall, ret.
  destruct (decide (c10.TempFile.fd t ∈ fds w)) as [Hin|Hin]; simpl.
  - by eexists.
  - eexists. split; [done |]. simpl. split; [done |]. symmetry.
    by apply difference_disjoint_L, disjoint_singleton_r.
Qed.

Lemma closed_not_elem (t : c10.TempFile.t) (s : gset Z) :
  c10.TempFile.fd t >= 0 → c10.TempFile.fd t ∉ closed Posix t s.
Proof.
  intros Hfd. unfold closed. rewrite decide_True by done.
  rewrite elem_of_difference, elem_of_singleton. tauto.
Qed.

(** The three ways [~TempFile] ends when the name is not empty. *)
Lemma TempFile_dtor_run plat (t : c10.TempFile.t) w :
  c10.TempFile.name t ≠ "" →
  ∃ w1 o, c10.TempFile.dtor plat t w = (w1, o) ∧
    ((deletable_kind plat w (c_str (c10.TempFile.name t)) ∧ o = Ret tt ∧
      fs w1 = delete (c_str (c10.TempFile.name t)) (fs w) ∧
      fds w1 = closed plat t (fds w)) ∨
     (¬ removable plat w (c_str (c10.TempFile.name t)) ∧
      fs w !! c_str (c10.TempFile.name t) = None ∧ o = Ret tt ∧
      fs w1 = fs w ∧ fds w1 = closed plat t (fds w)) ∨
     (¬ removable plat w (c_str (c10.TempFile.name t)) ∧ o = Terminate ∧
      fs w1 = fs w ∧ fds w1 = fds w)).
Proof.
  intros Hne%empty_false. unfold c10.TempFile.dtor, noexcept.
  rewrite Hne. cbn [negb]. unfold bind at 1.
  destruct (fs_remove_run plat (c10.TempFile.name t) w)
    as (w1 & o & -> & Hfds & _ &
        [(Hrm & -> & Hfs)|[(Hn & Hnone & -> & Hfs)|(Hn & [e ->] & Hfs)]]).
  - destruct (close_run plat t w1) as (w2 & -> & Hfs2 & Hfds2).
    eexists _, _. split; [done |]. left.
    by rewrite Hfs2, Hfds2, Hfs, Hfds.
  - destruct (close_run plat t w1) as (w2 & -> & Hfs2 & Hfds2).
    eexists _, _. split; [done |]. right. left.
    by rewrite Hfs2, Hfds2, Hfs, Hfds.
  - eexists _, _. split; [done |]. right. right. by rewrite Hfs, Hfds.
Qed.

Lemma TempDir_dtor_run plat (d : c10.TempDir.t) w :
  c10.TempDir.name d ≠ "" →
  ∃ w1 o, c10.TempDir.dtor plat d w = (w1, o) ∧ fds w1 = fds w ∧
    ((deletable_kind plat w (c_str (c10.TempDir.name d)) ∧ o = Ret tt ∧
      fs w1 = delete (c_str (c10.TempDir.name d)) (fs w)) ∨
     (¬ removable plat w (c_str (c10.TempDir.name d)) ∧
      fs w !! c_str (c10.TempDir.name d) = None ∧ o = Ret tt ∧ fs w1 = fs w) ∨
     (¬ removable plat w (c_str (c10.TempDir.name d)) ∧ o = Terminate ∧
      fs w1 = fs w)).
Proof.
  intros Hne%empty_false. unfold c10.TempDir.dtor, noexcept, bind.
  rewrite Hne. cbn [negb].
  destruct (fs_remove_run plat (c10.TempDir.name d) w)
    as (w1 & o & -> & Hfds & _ &
        [(Hrm & -> & Hfs)|[(Hn & Hnone & -> & Hfs)|(Hn & [e ->] & Hfs)]]);
    eexists _, _; (split; [done |]); (split; [done |]); tauto.
Qed.

Lemma TempFile_dtor_removes plat (t : c10.TempFile.t) w :
  c10.TempFile.name t ≠ "" →
  removable plat w (c_str (c10.TempFile.name t)) →
  ∃ w1, c10.TempFile.dtor plat t w = (w1, Ret tt) ∧
        fs w1 = delete (c_str (c10.TempFile.name t)) (fs w) ∧
        fds w1 = closed plat t (fds w).
Proof.
  intros Hne Hrm.
  destruct (TempFile_dtor_run plat t w Hne)
    as (w1 & o & Hrun & [(_ & -> & ? & ?)|[(? & _)|(? & _)]]); [|done..].
  by exists w1.
Qed.

Lemma TempDir_dtor_removes plat (d : c10.TempDir.t) w :
  c10.TempDir.name d ≠ "" →
  removable plat w (c_str (c10.TempDir.name d)) →
  ∃ w1, c10.TempDir.dtor plat d w = (w1, Ret tt) ∧
        fs w1 = delete (c_str (c10.TempDir.name d)) (fs w) ∧
        fds w1 = fds w.
Proof.
  intros Hne Hrm.
  destruct (TempDir_dtor_run plat d w Hne)
    as (w1 & o & Hrun & ? & [(_ & -> & ?)|[(? & _)|(? & _)]]); [|done..].
  by exists w1.
Qed.

End Destruction.

(** C10. A [TempFile] whose name is empty is destroyed without any effect:
    whatever its descriptor, the world after [~TempFile()] is the world
    before it (same files, same open descriptors, no call recorded), on both
    platforms. In particular a descriptor [fd >= 0] given to the public
    constructor together with an empty name stays open. *)
Theorem TempFile_dtor_empty_name_does_nothing
    (plat : platform) (fd : Z) (w : World) :
  c10.TempFile.dtor plat (c10.TempFile.ctor "" fd) w = (w, Ret tt) ∧
  (fd ∈ fds w ↔ fd ∈ fds (fst (c10.TempFile.dtor plat (c10.TempFile.ctor "" fd) w))) ∧
  trace (fst (c10.TempFile.dtor plat (c10.TempFile.ctor "" fd) w)) = trace w.
Proof.
  unfold c10.TempFile.ctor. by rewrite (Run.TempFile_dtor_empty plat fd w).
Qed.

(** C1, as amended. Take a [TempFile] (resp. [TempDir]) whose name is not
    empty. When the name is the plain path (final component not empty, [.]
    or [..]) of a regular file or of an empty directory which the system
    lets the process delete, the destructor returns; afterwards the path is
    not an entry of the file system any more, every other entry is as
    before, and on POSIX a descriptor [fd >= 0] of a [TempFile] is no
    longer open. Whenever the destructor returns, the path is not an entry
    afterwards and the descriptor is closed. When it does not return, it
    ends in [std::terminate]: [std::filesystem::remove] threw on something
    it could not delete, nothing was removed and no descriptor was
    closed. *)
Theorem dtor_removes_owned (plat : platform) (w : World) :
  (∀ t : c10.TempFile.t,
     c10.TempFile.name t ≠ "" →
     (removable plat w (Str.c_str (c10.TempFile.name t)) →
      ∃ w1, c10.TempFile.dtor plat t w = (w1, Ret tt) ∧
            fs w1 !! Str.c_str (c10.TempFile.name t) = None ∧
            fs w1 = delete (Str.c_str (c10.TempFile.name t)) (fs w) ∧
            (plat = Posix → c10.TempFile.fd t >= 0 →
             c10.TempFile.fd t ∉ fds w1)) ∧
     (∀ w1, c10.TempFile.dtor plat t w = (w1, Ret tt) →
            fs w1 !! Str.c_str (c10.TempFile.name t) = None ∧
            (plat = Posix → c10.TempFile.fd t >= 0 →
             c10.TempFile.fd t ∉ fds w1)) ∧
     (∀ w1 o, c10.TempFile.dtor plat t w = (w1, o) → o ≠ Ret tt →
              o = Terminate ∧
              ¬ removable plat w (Str.c_str (c10.TempFile.name t)) ∧
              fs w1 = fs w ∧ fds w1 = fds w)) ∧
  (∀ d : c10.TempDir.t,
     c10.TempDir.name d ≠ "" →
     (removable plat w (Str.c_str (c10.TempDir.name d)) →
      ∃ w1, c10.TempDir.dtor plat d w = (w1, Ret tt) ∧
            fs w1 !! Str.c_str (c10.TempDir.name d) = None ∧
            fs w1 = delete (Str.c_str (c10.TempDir.name d)) (fs w)) ∧
     (∀ w1, c10.TempDir.dtor plat d w = (w1, Ret tt) →
            fs w1 !! Str.c_str (c10.TempDir.name d) = None) ∧
     (∀ w1 o, c10.TempDir.dtor plat d w = (w1, o) → o ≠ Ret tt →
              o = Terminate ∧
              ¬ removable plat w (Str.c_str (c10.TempDir.name d)) ∧
              fs w1 = fs w ∧ fds w1 = fds w)).
Proof.
  split.
  - intros t Hne.
    destruct (Destruction.TempFile_dtor_run plat t w Hne)
      as (w1 & o & Hrun &
          [(Hrm & -> & Hfs & Hfds)|[(Hn & Hnone & -> & Hfs & Hfds)
                                   |(Hn & -> & Hfs & Hfds)]]).
    + split_and!.
      * intros _. exists w1. split_and!; try done.
        -- by rewrite Hfs, lookup_delete_eq.
        -- intros -> Hfd. rewrite Hfds. by apply Destruction.closed_not_elem.
      * intros w2. rewrite Hrun. intros [= <-]. split.
        -- by rewrite Hfs, lookup_delete_eq.
        -- intros -> Hfd. rewrite Hfds. by apply Destruction.closed_not_elem.
      * intros w2 o. rewrite Hrun. by intros [= <- <-].
    + split_and!.
      * done.
      * intros w2. rewrite Hrun. intros [= <-]. split.
        -- by rewrite Hfs.
        -- intros -> Hfd. rewrite Hfds. by apply Destruction.closed_not_elem.
      * intros w2 o. rewrite Hrun. by intros [= <- <-].
    + split_and!.
      * done.
      * intros w2. by rewrite Hrun.
      * intros w2 o. rewrite Hrun. by intros [= <- <-].
  - intros d Hne.
    destruct (Destruction.TempDir_dtor_run plat d w Hne)
      as (w1 & o & Hrun & Hfds &
          [(Hrm & -> & Hfs)|[(Hn & Hnone & -> & Hfs)|(Hn & -> & Hfs)]]).
    + split_and!.
      * intros _. exists w1. split_and!; try done.
        by rewrite Hfs, lookup_delete_eq.
      * intros w2. rewrite Hrun. intros [= <-].
        by rewrite Hfs, lookup_delete_eq.
      * intros w2 o. rewrite Hrun. by intros [= <- <-].
    + split_and!.
      * done.
      * intros w2. rewrite Hrun. intros [= <-]. by rewrite Hfs.
      * intros w2 o. rewrite Hrun. by intros [= <- <-].
    + split_and!.
      * done.
      * intros w2. by rewrite Hrun.
      * intros w2 o. rewrite Hrun. by intros [= <- <-].
Qed.

Lemma dtor_removes_owned_witness :
  (∃ w1, c10.TempFile.dtor Posix (c10.TempFile.mk 3 "/tmp/torch-file-faaaaa")
           after_make_tempfile = (w1, Ret tt) ∧
         fs w1 !! "/tmp/torch-file-faaaaa" = None ∧
         fs w1 = delete "/tmp/torch-file-faaaaa" (fs after_make_tempfile) ∧
         (Posix = Posix → 3 >= 0 → 3 ∉ fds w1)) ∧
  (∃ w1, c10.TempDir.dtor Posix (c10.TempDir.mk "/tmp/torch-dir-faaaaa")
           after_make_tempdir = (w1, Ret tt) ∧
         fs w1 !! "/tmp/torch-dir-faaaaa" = None ∧
         fs w1 = delete "/tmp/torch-dir-faaaaa" (fs after_make_tempdir)).
Proof.
  split.
  - apply (proj1 (proj1 (dtor_removes_owned Posix after_make_tempfile)
                    (c10.TempFile.mk 3 "/tmp/torch-file-faaaaa") ltac:(done))).
    split_and!; [left; by vm_compute | by vm_compute | by vm_compute].
  - apply (proj1 (proj2 (dtor_removes_owned Posix after_make_tempdir)
                    (c10.TempDir.mk "/tmp/torch-dir-faaaaa") ltac:(done))).
    split_and!; [right; split; by vm_compute | by vm_compute | by vm_compute].
Defined.

(** C1, counterexample. With [TMPDIR] set to a directory of the user's,
    [make_tempfile("torch-file-")] returns a [TempFile] with a non-empty
    name and descriptor 3, and the file it names exists. Once the write
    permission on the directory has been taken away, the destruction of
    that value ends in [std::terminate]: the file is still there and the
    descriptor is still open. *)
Lemma dtor_keeps_locked_file :
  ∃ t, c10.make_tempfile Posix "torch-file-" scratch_world
       = (in_scratch, Ret t) ∧
       c10.TempFile.name t = "/home/user/scratch/torch-file-faaaaa" ∧
       c10.TempFile.fd t = 3 ∧
       fs in_locked_scratch !! "/home/user/scratch/torch-file-faaaaa"
         = Some File ∧
       snd (c10.TempFile.dtor Posix t in_locked_scratch) = Terminate ∧
       fs (fst (c10.TempFile.dtor Posix t in_locked_scratch))
         !! "/home/user/scratch/torch-file-faaaaa" = Some File ∧
       3 ∈ fds (fst (c10.TempFile.dtor Posix t in_locked_scratch)).
Proof.
  eexists. split; [by vm_compute |]. split_and!; by vm_compute.
Qed.

(** Two more cases in which a non-empty name is not enough. After
    [make_tempdir("torch-dir-")] and the creation of one file inside the
    new directory, the destruction of the [TempDir] ends in
    [std::terminate] and the directory is still there. *)
Example dtor_keeps_populated_directory :
  ∃ w d, populated_tempdir = (w, Ret d) ∧
         c10.TempDir.name d = "/tmp/torch-dir-faaaaa" ∧
         c10.TempDir.name d ≠ "" ∧
         snd (c10.TempDir.dtor Posix d w) = Terminate ∧
         fs (fst (c10.TempDir.dtor Posix d w)) !! Str.c_str (c10.TempDir.name d)
           = Some Dir.
Proof. eexists _, _. split; [by vm_compute |]. by vm_compute. Qed.

(** A [TempFile] made with the public constructor on a path that runs
    through a regular file: [remove] fails with [ENOTDIR], the destructor
    ends in [std::terminate] and the descriptor stays open. *)
Example dtor_below_a_file :
  let t := c10.TempFile.ctor below_a_file 3 in
  fs after_make_tempfile !! "/tmp/torch-file-faaaaa" = Some File ∧
  c10.TempFile.dtor Posix t after_make_tempfile
  = (with_errno ENOTDIR (log (ev_remove below_a_file) after_make_tempfile),
     Terminate) ∧
  3 ∈ fds (fst (c10.TempFile.dtor Posix t after_make_tempfile)).
Proof.
  split_and!; by vm_compute.
Qed.

(** ** Moves *)

Module Aliasing.

Ltac store_eq h :=
  apply map_eq; intros ?; simpl;
  repeat (rewrite ?lookup_alter, ?lookup_insert; simpl; repeat case_decide;
          simplify_eq; simpl;
          repeat match goal with H : h !! _ = Some _ |- _ => rewrite H end;
          simpl); try done.

Lemma move_assign_at_distinct self_moved (this other : nat)
    (h : gmap nat c10.TempFile.t) (a b : c10.TempFile.t) :
  h !! this = Some a → h !! other = Some b → this ≠ other →
  move_assign_at self_moved this other h
  = <[this := b]> (<[other := c10.TempFile.mk (-1) ""]> h).
Proof.
  intros Ha Hb Hne. destruct b as [fd name].
  unfold move_assign_at, string_move_assign_at, fd_at, name_at, set_fd, set_name.
  rewrite decide_False by done. store_eq h.
Qed.

Lemma move_assign_at_self self_moved (this : nat)
    (h : gmap nat c10.TempFile.t) (a : c10.TempFile.t) :
  h !! this = Some a →
  move_assign_at self_moved this this h = <[this := c10.TempFile.mk (-1) ""]> h.
Proof.
  intros Ha.
  unfold move_assign_at, string_move_assign_at, fd_at, name_at, set_fd, set_name.
  rewrite decide_True by done. store_eq h.
Qed.

Lemma TempDir_move_assign_at_distinct self_moved (this other : nat)
    (h : gmap nat c10.TempDir.t) (a b : c10.TempDir.t) :
  h !! this = Some a → h !! other = Some b → this ≠ other →
  TempDir_move_assign_at self_moved this other h
  = <[this := b]> (<[other := c10.TempDir.mk ""]> h).
Proof.
  intros Ha Hb Hne. destruct b as [name].
  unfold TempDir_move_assign_at, path_move_assign_at, dir_name_at, set_dir_name.
  rewrite decide_False by done. store_eq h.
Qed.

Lemma TempDir_move_assign_at_self self_moved (this : nat)
    (h : gmap nat c10.TempDir.t) (a : c10.TempDir.t) :
  h !! this = Some a →
  TempDir_move_assign_at self_moved this this h = <[this := c10.TempDir.mk ""]> h.
Proof.
  intros Ha.
  unfold TempDir_move_assign_at, path_move_assign_at, dir_name_at, set_dir_name.
  rewrite decide_True by done. store_eq h.
Qed.

End Aliasing.

(** C4, as amended. Moving a [TempFile] or a [TempDir], by construction or
    by assignment between two distinct objects, hands the descriptor and
    the name to the destination and leaves the source with an empty name
    (and descriptor -1 for a [TempFile]). Destroying the source afterwards
    changes nothing in the world; destroying the destination does exactly
    what destroying the original would have done, and so removes the
    resource when its name is not empty and is the plain path of a file or
    of an empty directory which the system lets the process delete. Assignment
    run on objects in memory agrees with this for two distinct objects;
    an object move-assigned to itself is left with an empty name (and
    descriptor -1), whatever the library leaves in a string moved to
    itself. *)
Theorem move_transfers_ownership (plat : platform) (w : World) :
  (∀ other : c10.TempFile.t,
     let '(this, other') := c10.TempFile.move_ctor other in
     this = other ∧ other' = c10.TempFile.mk (-1) "" ∧
     c10.TempFile.dtor plat other' w = (w, Ret tt) ∧
     c10.TempFile.dtor plat this w = c10.TempFile.dtor plat other w ∧
     (c10.TempFile.name other ≠ "" →
      removable plat w (Str.c_str (c10.TempFile.name other)) →
      ∃ w1, c10.TempFile.dtor plat this w = (w1, Ret tt) ∧
            fs w1 !! Str.c_str (c10.TempFile.name other) = None)) ∧
  (∀ this0 other : c10.TempFile.t,
     let '(this, other') := c10.TempFile.move_assign this0 other in
     this = other ∧ other' = c10.TempFile.mk (-1) "" ∧
     c10.TempFile.dtor plat other' w = (w, Ret tt) ∧
     c10.TempFile.dtor plat this w = c10.TempFile.dtor plat other w ∧
     (c10.TempFile.name other ≠ "" →
      removable plat w (Str.c_str (c10.TempFile.name other)) →
      ∃ w1, c10.TempFile.dtor plat this w = (w1, Ret tt) ∧
            fs w1 !! Str.c_str (c10.TempFile.name other) = None)) ∧
  (∀ other : c10.TempDir.t,
     let '(this, other') := c10.TempDir.move_ctor other in
     this = other ∧ other' = c10.TempDir.mk "" ∧
     c10.TempDir.dtor plat other' w = (w, Ret tt) ∧
     c10.TempDir.dtor plat this w = c10.TempDir.dtor plat other w ∧
     (c10.TempDir.name other ≠ "" →
      removable plat w (Str.c_str (c10.TempDir.name other)) →
      ∃ w1, c10.TempDir.dtor plat this w = (w1, Ret tt) ∧
            fs w1 !! Str.c_str (c10.TempDir.name other) = None)) ∧
  (∀ this0 other : c10.TempDir.t,
     let '(this, other') := c10.TempDir.move_assign this0 other in
     this = other ∧ other' = c10.TempDir.mk "" ∧
     c10.TempDir.dtor plat other' w = (w, Ret tt) ∧
     c10.TempDir.dtor plat this w = c10.TempDir.dtor plat other w ∧
     (c10.TempDir.name other ≠ "" →
      removable plat w (Str.c_str (c10.TempDir.name other)) →
      ∃ w1, c10.TempDir.dtor plat this w = (w1, Ret tt) ∧
            fs w1 !! Str.c_str (c10.TempDir.name other) = None)) ∧
  (∀ self_moved (this other : nat) (h : gmap nat c10.TempFile.t) a b,
     h !! this = Some a → h !! other = Some b →
     (this ≠ other →
      move_assign_at self_moved this other h
      = <[this := fst (c10.TempFile.move_assign a b)]>
          (<[other := snd (c10.TempFile.move_assign a b)]> h)) ∧
     (this = other →
      move_assign_at self_moved this other h
      = <[this := c10.TempFile.mk (-1) ""]> h)) ∧
  (∀ self_moved (this other : nat) (h : gmap nat c10.TempDir.t) a b,
     h !! this = Some a → h !! other = Some b →
     (this ≠ other →
      TempDir_move_assign_at self_moved this other h
      = <[this := fst (c10.TempDir.move_assign a b)]>
          (<[other := snd (c10.TempDir.move_assign a b)]> h)) ∧
     (this = other →
      TempDir_move_assign_at self_moved this other h
      = <[this := c10.TempDir.mk ""]> h)).
Proof.
  split_and!.
  - intros [fd name]. simpl. split_and!; try done. intros Hne Hrm.
    destruct (Destruction.TempFile_dtor_removes plat (c10.TempFile.mk fd name)
                w Hne Hrm) as (w1 & Hrun & Hfs & _).
    exists w1. split; [done |]. by rewrite Hfs, lookup_delete_eq.
  - intros this0 [fd name]. simpl. split_and!; try done. intros Hne Hrm.
    destruct (Destruction.TempFile_dtor_removes plat (c10.TempFile.mk fd name)
                w Hne Hrm) as (w1 & Hrun & Hfs & _).
    exists w1. split; [done |]. by rewrite Hfs, lookup_delete_eq.
  - intros [name]. simpl. split_and!; try done. intros Hne Hrm.
    destruct (Destruction.TempDir_dtor_removes plat (c10.TempDir.mk name)
                w Hne Hrm) as (w1 & Hrun & Hfs & _).
    exists w1. split; [done |]. by rewrite Hfs, lookup_delete_eq.
  - intros this0 [name]. simpl. split_and!; try done. intros Hne Hrm.
    destruct (Destruction.TempDir_dtor_removes plat (c10.TempDir.mk name)
                w Hne Hrm) as (w1 & Hrun & Hfs & _).
    exists w1. split; [done |]. by rewrite Hfs, lookup_delete_eq.
  - intros self_moved this other h a b Ha Hb. split.
    + intros Hne. destruct b as [fd name]. simpl.
      by apply (Aliasing.move_assign_at_distinct _ _ _ _ a).
    + intros <-. by apply (Aliasing.move_assign_at_self _ _ _ a).
  - intros self_moved this other h a b Ha Hb. split.
    + intros Hne. destruct b as [name]. simpl.
      by apply (Aliasing.TempDir_move_assign_at_distinct _ _ _ _ a).
    + intros <-. by apply (Aliasing.TempDir_move_assign_at_self _ _ _ a).
Qed.

Lemma move_transfers_ownership_witness :
  ∃ w1, c10.TempFile.dtor Posix
          (fst (c10.TempFile.move_ctor (c10.TempFile.mk 3 "/tmp/torch-file-faaaaa")))
          after_make_tempfile = (w1, Ret tt) ∧
        fs w1 !! "/tmp/torch-file-faaaaa" = None.
Proof.
  pose proof (proj1 (move_transfers_ownership Posix after_make_tempfile)
                (c10.TempFile.mk 3 "/tmp/torch-file-faaaaa")) as H.
  simpl in H. destruct H as (_ & _ & _ & _ & H).
  apply H; [done |].
  split_and!; [left; by vm_compute | by vm_compute | by vm_compute].
Defined.

(** C4, counterexample. [make_tempfile("torch-file-")] returns a
    [TempFile] whose file exists and could be removed. Once that object
    has been move-assigned to itself, it has descriptor -1 and an empty
    name: its destruction, which is that of the move destination, changes
    nothing, and the file is still there with its descriptor open. *)
Lemma self_move_assign_leaks :
  c10.make_tempfile Posix "torch-file-" posix_world
  = (after_make_tempfile, Ret (c10.TempFile.mk 3 "/tmp/torch-file-faaaaa")) ∧
  removable Posix after_make_tempfile "/tmp/torch-file-faaaaa" ∧
  (∀ self_moved : string → string,
   ∃ destination,
     move_assign_at self_moved 0 0
       {[ 0%nat := c10.TempFile.mk 3 "/tmp/torch-file-faaaaa" ]} !! 0%nat
     = Some destination ∧
     destination = c10.TempFile.mk (-1) "" ∧
     c10.TempFile.dtor Posix destination after_make_tempfile
     = (after_make_tempfile, Ret tt)) ∧
  fs after_make_tempfile !! "/tmp/torch-file-faaaaa" = Some File ∧
  3 ∈ fds after_make_tempfile.
Proof.
  split; [by vm_compute |]. split.
  { split_and!; [left; by vm_compute | by vm_compute | by vm_compute]. }
  split; [|split; by vm_compute].
  intros self_moved. exists (c10.TempFile.mk (-1) "").
  split; [|done].
  rewrite (Aliasing.move_assign_at_self self_moved 0 _
             (c10.TempFile.mk 3 "/tmp/torch-file-faaaaa"))
    by apply lookup_singleton_eq.
  apply lookup_insert_eq.
Qed.

(** A second case in which the destination does not remove the resource:
    a [TempDir] that owns a directory which has received an entry is
    moved; the destruction of the destination ends in [std::terminate]
    and the directory is still there. *)
Example moved_populated_directory :
  ∃ w d, populated_tempdir = (w, Ret d) ∧
         let '(this, other') := c10.TempDir.move_ctor d in
         other' = c10.TempDir.mk "" ∧
         snd (c10.TempDir.dtor Posix this w) = Terminate ∧
         fs (fst (c10.TempDir.dtor Posix this w)) !! "/tmp/torch-dir-faaaaa"
           = Some Dir.
Proof. eexists _, _. split; [by vm_compute |]. by vm_compute. Qed.

(** ** The factories *)

Module Factories.
Import Str StrFacts OS OSFacts Run.

Lemma pattern_not_empty (w : World) (P : string) : empty (pattern_of w P) = false.
Proof.
  unfold pattern_of, Path.concat, c10.detail.kRandomPattern.
  destruct (Path.append _ P); reflexivity.
Qed.

Lemma no_nul_stem (s stem sfx : string) :
  c_str s = stem +:+ sfx → no_nul stem = true.
Proof.
  intros E. pose proof (c_str_no_nul s) as H. rewrite E in H.
  unfold no_nul in *. rewrite forallb_app in H.
  by apply andb_prop in H as [H _].
Qed.

Lemma no_nul_app (a b : string) :
  no_nul a = true → no_nul b = true → no_nul (a +:+ b) = true.
Proof. unfold no_nul. rewrite forallb_app. by intros -> ->. Qed.

(** POSIX [try_make_tempfile]: nothing is thrown; either the result is
    empty and no entry or descriptor was added, or a file was created
    under a name made of the stem of the pattern and six fresh characters. *)
Lemma try_make_tempfile_posix_spec (P : string) (w : World) :
  ∃ w1 r, c10.try_make_tempfile Posix P w = (w1, Ret r) ∧
    ((r = None ∧ fs w1 = fs w ∧ fds w1 = fds w) ∨
     (∃ stem v fd,
        c_str (pattern_of w P) = stem +:+ placeholder ∧
        r = Some (c10.TempFile.mk fd
                    ((stem +:+ fill 6 v) +:+ after_c_str (pattern_of w P))) ∧
        0 ≤ fd ∧
        file_created w (stem +:+ fill 6 v) fd w1)).
Proof.
  unfold c10.try_make_tempfile, c10.detail.make_filename, bind.
  destruct (make_filename_posix_run P w) as [evs ->].
  fold (pattern_of w P). rewrite pattern_not_empty.
  destruct (mkstemp (pattern_of w P) (logs evs w)) as [w1 o] eqn:E.
  assert (∃ fd buf, o = Ret (fd, buf)) as (fd & buf & ->).
  { unfold mkstemp, syscall in E.
    destruct (gen_tempname _ _ _) as [? [? ?]]. injection E as <- <-. eauto. }
  apply mkstemp_spec in E as [(-> & Hfs & Hfds)|(Hfd & stem & v & Ht & -> & Hc)].
  - rewrite decide_True by done. eexists _, _. split; [done |]. by left.
  - rewrite decide_False by lia. rewrite return_TempFile_run.
    eexists _, _. split; [done |]. right. by exists stem, v, fd.
Qed.

Lemma try_make_tempdir_posix_spec (P : string) (w : World) :
  ∃ w1 r, c10.try_make_tempdir Posix P w = (w1, Ret r) ∧
    ((r = None ∧ fs w1 = fs w ∧ fds w1 = fds w) ∨
     (∃ stem v,
        c_str (pattern_of w P) = stem +:+ placeholder ∧
        r = Some (c10.TempDir.mk (stem +:+ fill 6 v)) ∧
        dir_created w (stem +:+ fill 6 v) 0 w1)).
Proof.
  unfold c10.try_make_tempdir, bind.
  destruct (make_filename_posix_run P w) as [evs ->].
  fold (pattern_of w P).
  destruct (mkdtemp (pattern_of w P) (logs evs w)) as [w1 o] eqn:E.
  assert (∃ r, o = Ret r) as (r & ->).
  { unfold mkdtemp, syscall in E.
    destruct (gen_tempname _ _ _) as [? [? ?]]. injection E as <- <-. eauto. }
  apply mkdtemp_spec in E as [(-> & Hfs & Hfds)|(stem & v & Ht & -> & Hc)].
  - eexists _, _. split; [done |]. by left.
  - unfold c10.TempDir.ctor. simpl. rewrite return_TempDir_run.
    eexists _, _. split; [done |]. right. by exists stem, v.
Qed.

(** Windows [make_filename()]: one answer of [tmpnam_s] is consumed; files
    and descriptors are not touched. *)
Lemma make_filename_win32_run (w : World) :
  ∃ w1 name, c10.detail.make_filename_win32 w = (w1, Ret name) ∧
    fs w1 = fs w ∧ fds w1 = fds w ∧ last_error w1 = last_error w ∧
    errno w1 = errno w ∧
    ((name = "" ∧ tmpnam_answers w1 = tail (tmpnam_answers w) ∧
      (∀ n rest, tmpnam_answers w = Some n :: rest → c_str n = "")) ∨
     (∃ n, name = c_str n ∧ name ≠ "" ∧
           tmpnam_answers w = Some n :: tmpnam_answers w1)).
Proof.
  unfold c10.detail.make_filename_win32, bind, tmpnam_s, syscall.
  destruct (tmpnam_answers w) as [|[n|] rest] eqn:E; simpl.
  - eexists _, _. split; [done |]. simpl. rewrite E. split_and!; try done.
    by left.
  - eexists _, _. split; [done |]. simpl. split_and!; try done.
    destruct (c_str n) eqn:En.
    + left. split_and!; try done. by intros ?? [= -> ->].
    + right. exists n. by rewrite En.
  - eexists _, _. split; [done |]. simpl. split_and!; try done.
    left. split_and!; try done.
Qed.

Lemma try_make_tempfile_win32_spec (P : string) (w : World) :
  ∃ w1 r, c10.try_make_tempfile Win32 P w = (w1, Ret r) ∧
    fs w1 = fs w ∧ fds w1 = fds w ∧ errno w1 = errno w ∧
    ((r = None ∧ ∀ n rest, tmpnam_answers w = Some n :: rest → c_str n = "") ∨
     (∃ n, r = Some (c10.TempFile.mk (-1) (c_str n)) ∧ c_str n ≠ "" ∧
           tmpnam_answers w = Some n :: tmpnam_answers w1)).
Proof.
  unfold c10.try_make_tempfile, c10.detail.make_filename, bind.
  destruct (make_filename_win32_run w)
    as (w1 & name & -> & Hfs & Hfds & _ & Herr & [(-> & _ & Hn)|(n & -> & Hne & Ha)]).
  - simpl. eexists _, _. split; [done |]. repeat split; try done. by left.
  - apply empty_false in Hne as Hne'. rewrite Hne'.
    unfold c10.TempFile.ctor. rewrite return_TempFile_run.
    eexists _, _. split; [done |]. repeat split; try done. right. by exists n.
Qed.

End Factories.

(** ** The bounded retry on Windows *)

Module Retry.
Import Str StrFacts OS OSFacts Run Factories.

Lemma make_filename_win32_calls (w : World) :
  ∃ w1 name, c10.detail.make_filename_win32 w = (w1, Ret name) ∧
             tmpnam_calls (trace w1) = S (tmpnam_calls (trace w)).
Proof.
  unfold c10.detail.make_filename_win32, bind, tmpnam_s, syscall.
  destruct (tmpnam_answers w) as [|[n|] rest]; simpl; by eexists _, _.
Qed.

Lemma create_directories_calls (p : string) (w : World) :
  ∃ w1 b, create_directories p w = (w1, Ret b) ∧
          tmpnam_calls (trace w1) = tmpnam_calls (trace w).
Proof.
  unfold create_directories, syscall.
  destruct (fs w !! c_str p); [by eexists _, _ |].
  destruct (refused (Create Dir) (c_str p) w); [by eexists _, _ |].
  destruct (mkdirs _ _ _); by eexists _, _.
Qed.

Lemma attempt_calls (w w1 : World) (a : attempt_result) :
  attempt w = (w1, a) → tmpnam_calls (trace w1) = S (tmpnam_calls (trace w)).
Proof.
  unfold attempt.
  destruct (make_filename_win32_calls w) as (w' & name & -> & Hc).
  destruct (empty name); [by intros [= <- <-] |].
  destruct (create_directories_calls name w') as (w2 & b & -> & Hc2).
  rewrite <- Hc, <- Hc2.
  destruct b; [by intros [= <- <-] |].
  destruct (decide _); by intros [= <- <-].
Qed.

(** The loop of the source, one iteration unfolded, in terms of [attempt]. *)
Lemma loop_step (n : nat) (w : World) :
  c10.try_make_tempdir_loop (S n) w =
  match attempt w with
  | (w1, NameFailed) => (w1, Ret None)
  | (w1, OtherError) => (w1, Ret None)
  | (w1, Created dirname) => (w1, Ret (Some (c10.TempDir.mk dirname)))
  | (w1, AlreadyExists) => c10.try_make_tempdir_loop n w1
  end.
Proof.
  cbn [c10.try_make_tempdir_loop]. unfold attempt, bind.
  destruct (make_filename_win32_calls w) as (w' & name & -> & _).
  destruct (empty name); [done |].
  destruct (create_directories_calls name w') as (w2 & b & -> & _).
  destruct b.
  - unfold c10.TempDir.ctor. simpl. by rewrite return_TempDir_run.
  - unfold GetLastError, syscall.
    destruct (decide (last_error w2 = ERROR_ALREADY_EXISTS)) as [E|E].
    + by rewrite decide_False by (by intros ?).
    + by rewrite decide_True.
Qed.

Lemma loop_spec (n : nat) (w : World) :
  ∃ w1 r, c10.try_make_tempdir_loop n w = (w1, Ret r) ∧
          retry_spec n w w1 r ∧
          (tmpnam_calls (trace w1) ≤ tmpnam_calls (trace w) + n)%nat.
Proof.
  revert w. induction n as [|n IH]; intros w.
  - exists w, None. split; [done |]. split; [constructor | lia].
  - rewrite loop_step. destruct (attempt w) as [w1 a] eqn:E.
    pose proof (attempt_calls _ _ _ E) as Hc.
    destruct a.
    + exists w1, None. split; [done |]. split; [by constructor | lia].
    + eexists w1, _. split; [done |]. split; [by constructor | lia].
    + destruct (IH w1) as (w2 & r & -> & Hspec & Hle).
      exists w2, r. split; [done |]. split; [by econstructor | lia].
    + exists w1, None. split; [done |]. split; [by constructor 3 | lia].
Qed.

Lemma retry_spec_functional (n : nat) (w w1 w2 : World) r1 r2 :
  retry_spec n w w1 r1 → retry_spec n w w2 r2 → w1 = w2 ∧ r1 = r2.
Proof.
  intros H1. revert w2 r2.
  induction H1 as [w|n w w1 Ha|n w w1 Ha|n w w1 d Ha|n w w1 w3 r Ha Hr IH];
    intros w2 r2 H2; inversion H2; subst; try congruence; try done.
  all: match goal with
       | H : attempt ?w = _, H' : attempt ?w = _ |- _ =>
           rewrite H in H'; injection H' as H'; subst
       end; try done.
  by apply IH.
Qed.

End Retry.

(** C7. On Windows [try_make_tempdir] never throws and behaves as the
    bounded retry with 100 attempts allowed: it ends where [retry_spec 100]
    ends, with the same result, and [retry_spec 100] admits no other end;
    it calls the name generator at most 100 times. By the rules of
    [retry_spec], a name-generation failure or a creation error other than
    "already exists" gives the empty result at once, "already exists" goes
    on to the next attempt, a created directory is returned at once, and
    100 attempts that all found the name taken give the empty result. *)
Theorem try_make_tempdir_win32_bounded_retry (name_prefix : string) (w : World) :
  ∃ w1 r,
    c10.try_make_tempdir Win32 name_prefix w = (w1, Ret r) ∧
    retry_spec 100 w w1 r ∧
    (∀ w2 r2, retry_spec 100 w w2 r2 → w2 = w1 ∧ r2 = r) ∧
    (tmpnam_calls (trace w1) ≤ tmpnam_calls (trace w) + 100)%nat.
Proof.
  destruct (Retry.loop_spec 100 w) as (w1 & r & Hrun & Hspec & Hle).
  exists w1, r. split; [exact Hrun |]. split; [exact Hspec |].
  split; [|exact Hle].
  intros w2 r2 H2. by destruct (Retry.retry_spec_functional _ _ _ _ _ _ H2 Hspec).
Qed.

(** The four ways the search ends, on small systems. *)
Example retry_all_taken :
  let '(w1, r) := c10.try_make_tempdir Win32 "torch-dir-" (crowded_world 100) in
  r = Ret None ∧ tmpnam_calls (trace w1) = 100%nat ∧
  tmpnam_answers w1 = [Some (taken_name 100)].
Proof. by vm_compute. Qed.

Example retry_third_is_free :
  let '(w1, r) := c10.try_make_tempdir Win32 "torch-dir-" (crowded_world 2) in
  r = Ret (Some (c10.TempDir.mk (taken_name 2))) ∧
  tmpnam_calls (trace w1) = 3%nat ∧
  fs w1 !! taken_name 2 = Some Dir.
Proof. by vm_compute. Qed.

(** ** What the factories create *)

Module Creation.
Import Str StrFacts OS OSFacts Run Factories.

Lemma first_value_no_nul (variables : list string) (d : string)
    (e : gmap string string) :
  no_nul d = true → no_nul (first_value variables d e) = true.
Proof.
  intros Hd. induction variables as [|v rest IH]; simpl; [done |].
  destruct (e !! v); simpl; [apply c_str_no_nul | done].
Qed.

Lemma pattern_no_nul (w : World) (P : string) :
  no_nul P = true → no_nul (pattern_of w P) = true.
Proof.
  intros HP. unfold pattern_of, Path.concat, Path.append.
  pose proof (first_value_no_nul c10.detail.env_variables "/tmp" (env w) eq_refl)
    as Hb.
  apply no_nul_app; [|done].
  destruct (Path.is_absolute P); [done |].
  destruct (Path.has_filename _); repeat apply no_nul_app; done.
Qed.

Lemma app_inv_tail (a b sfx : string) : a +:+ sfx = b +:+ sfx → a = b.
Proof.
  intros E. pose proof (strip_suffix_app sfx a) as Ha.
  rewrite E, strip_suffix_app in Ha. congruence.
Qed.

(** The name a C API reads back from the buffer of a new entry is the name
    the entry was created under. *)
Lemma created_name_c_str (s stem : string) (v : N) :
  c_str s = stem +:+ placeholder →
  c_str ((stem +:+ fill 6 v) +:+ after_c_str s) = stem +:+ fill 6 v.
Proof.
  intros E. apply c_str_app_after, no_nul_app;
    [by apply (no_nul_stem s stem placeholder) | apply fill_no_nul].
Qed.

Lemma has_sep_app plat (a b : string) :
  Path.has_sep plat (a +:+ b) = Path.has_sep plat a || Path.has_sep plat b.
Proof. apply existsb_app. Qed.

Lemma ends_with_snoc p (a : string) (c : ascii) :
  ends_with p (a +:+ String c "") = p c.
Proof.
  induction a as [|x a IH]; norm; [done |].
  rewrite IH. by destruct a.
Qed.

Lemma ends_with_has_sep plat (d : string) :
  ends_with (Path.is_sep plat) d = true → Path.has_sep plat d = true.
Proof.
  unfold Path.has_sep. induction d as [|c d IH]; simpl; [done |].
  destruct d as [|c' d'].
  - intros ->. done.
  - intros H. rewrite (IH H). by destruct (Path.is_sep plat c).
Qed.

(** After a directory part that is empty or ends in a separator, a text
    without separator is the final component. *)
Lemma filename_after_dir plat (d r : string) :
  d = "" ∨ ends_with (Path.is_sep plat) d = true →
  Path.has_sep plat r = false →
  Path.filename plat (d +:+ r) = r.
Proof.
  intros Hd Hr. induction d as [|c d IH]; norm.
  - destruct r as [|x r]; simpl; [done |].
    simpl in Hr. unfold Path.has_sep in *. simpl in Hr.
    apply orb_false_elim in Hr as [Hx Hr]. by rewrite Hr, Hx.
  - destruct Hd as [Hd|Hd]; [done |].
    destruct d as [|c' d'].
    + simpl in Hd. norm. by rewrite Hr, Hd.
    + rewrite has_sep_app.
      rewrite (ends_with_has_sep plat (String c' d')) by exact Hd.
      simpl. apply IH. by right.
Qed.

(** With a valid prefix, the pattern is the base directory, a separator
    unless the base is empty or ends in one, the prefix, and the
    placeholder; so the final component of the created name is the prefix
    followed by the six generated characters. *)
Lemma pattern_dir (w : World) (P : string) :
  Path.has_sep Posix P = false →
  ∃ d, (d = "" ∨ ends_with (Path.is_sep Posix) d = true) ∧
       pattern_of w P = (d +:+ P) +:+ placeholder.
Proof.
  intros HP. unfold pattern_of, Path.concat, Path.append.
  assert (Path.is_absolute P = false) as ->.
  { destruct P as [|c P]; [done |]. unfold Path.has_sep in HP. simpl in *.
    by apply orb_false_elim in HP as [-> _]. }
  set (base := first_value _ _ _).
  destruct (Path.has_filename base) eqn:Hf.
  - exists (base +:+ "/"). split.
    + right. apply ends_with_snoc.
    + by rewrite !app_assoc.
  - exists base. split; [|done].
    unfold Path.has_filename in Hf.
    destruct base as [|c b]; [by left |]. right. simpl in Hf.
    by apply negb_false_iff in Hf.
Qed.

Lemma try_make_tempfile_posix_creates (P : string) (w w1 : World)
    (t : c10.TempFile.t) :
  c10.try_make_tempfile Posix P w = (w1, Ret (Some t)) →
  fs w !! c_str (c10.TempFile.name t) = None ∧
  fs w1 = <[c_str (c10.TempFile.name t) := File]> (fs w) ∧
  0 ≤ c10.TempFile.fd t ∧
  (c10.TempFile.fd t ∉ fds w) ∧
  fds w1 = {[c10.TempFile.fd t]} ∪ fds w ∧
  (valid_prefix P →
   ∃ v, Path.filename Posix (c10.TempFile.name t) = P +:+ fill 6 v).
Proof.
  intros Hrun.
  destruct (try_make_tempfile_posix_spec P w)
    as (w1' & r & Hrun' & [(-> & _)|(stem & v & fd & Ht & -> & Hfd & Hc)]);
    rewrite Hrun in Hrun'; simplify_eq.
  cbn [c10.TempFile.name c10.TempFile.fd].
  rewrite (created_name_c_str _ _ v Ht).
  destruct Hc as (Hnone & Hfs & Hnew & Hfds & _).
  split_and!; try done.
  intros [Hsep Hnul]. exists v.
  rewrite (c_str_id _ (pattern_no_nul w P Hnul)) in Ht.
  rewrite (after_c_str_id _ (pattern_no_nul w P Hnul)), app_nil_r.
  destruct (pattern_dir w P Hsep) as (d & Hd & Hp).
  rewrite Hp in Ht. apply app_inv_tail in Ht as <-.
  rewrite app_assoc. apply filename_after_dir; [done |].
  by rewrite has_sep_app, Hsep, fill_no_sep.
Qed.

Lemma try_make_tempdir_posix_creates (P : string) (w w1 : World)
    (d : c10.TempDir.t) :
  c10.try_make_tempdir Posix P w = (w1, Ret (Some d)) →
  fs w !! c10.TempDir.name d = None ∧
  fs w1 = <[c10.TempDir.name d := Dir]> (fs w) ∧
  c_str (c10.TempDir.name d) = c10.TempDir.name d ∧
  fds w1 = fds w.
Proof.
  intros Hrun.
  destruct (try_make_tempdir_posix_spec P w)
    as (w1' & r & Hrun' & [(-> & _)|(stem & v & Ht & -> & Hc)]);
    rewrite Hrun in Hrun'; simplify_eq.
  cbn [c10.TempDir.name].
  destruct Hc as (Hnone & Hfs & Hfds & _). split_and!; try done.
  apply c_str_id, no_nul_app;
    [by apply (no_nul_stem (pattern_of w P) stem placeholder) | apply fill_no_nul].
Qed.


(** The names [mkstemp] and [mkdtemp] make are plain: they end in six
    characters that are no separators. *)
Lemma made_name_plain (stem : string) (v : N) :
  Path.plain Posix (stem +:+ fill 6 v) = true.
Proof.
  apply PathFacts.plain_app; [apply fill_no_sep |]. rewrite fill_length. lia.
Qed.





End Creation.

(** ** Failure *)

Module Failure.
Import Str StrFacts OS OSFacts Run Factories.

(** The throwing factories, given what the fallible ones returned. *)
Lemma make_tempfile_of_try plat P w w1 r :
  c10.try_make_tempfile plat P w = (w1, Ret r) →
  c10.make_tempfile plat P w =
  (w1, match r with
       | Some t => Ret t
       | None => Throw (c10_Error ("Error generating temporary file: "
                                   +:+ strerror (errno w1)))
       end).
Proof.
  intros Hrun. unfold c10.make_tempfile, bind. rewrite Hrun.
  destruct r as [[fd name]|]; [reflexivity |].
  unfold strerror_errno, syscall, TORCH_CHECK_false, throw. simpl.
  by rewrite app_nil_r.
Qed.

Lemma make_tempdir_of_try plat P w w1 r :
  c10.try_make_tempdir plat P w = (w1, Ret r) →
  c10.make_tempdir plat P w =
  (w1, match r with
       | Some d => Ret d
       | None => Throw (c10_Error ("Error generating temporary directory: "
                                   +:+ strerror (errno w1)))
       end).
Proof.
  intros Hrun. unfold c10.make_tempdir, bind. rewrite Hrun.
  destruct r as [[name]|]; [reflexivity |].
  unfold strerror_errno, syscall, TORCH_CHECK_false, throw. simpl.
  by rewrite app_nil_r.
Qed.

Lemma try_make_tempfile_returns plat P w :
  ∃ w1 r, c10.try_make_tempfile plat P w = (w1, Ret r).
Proof.
  destruct plat.
  - destruct (try_make_tempfile_posix_spec P w) as (w1 & r & H & _). eauto.
  - destruct (try_make_tempfile_win32_spec P w) as (w1 & r & H & _). eauto.
Qed.

Lemma try_make_tempdir_returns plat P w :
  ∃ w1 r, c10.try_make_tempdir plat P w = (w1, Ret r).
Proof.
  destruct plat.
  - destruct (try_make_tempdir_posix_spec P w) as (w1 & r & H & _). eauto.
  - destruct (Retry.loop_spec 100 w) as (w1 & r & H & _). eauto.
Qed.

(** On POSIX the last call recorded is the creation call, and the result
    is empty exactly when that call failed, whatever [errno] says. *)
Lemma try_make_tempfile_posix_trace P w :
  ∃ w1 r template fd,
    c10.try_make_tempfile Posix P w = (w1, Ret r) ∧
    head (trace w1) = Some (ev_mkstemp template fd) ∧
    (r = None ↔ fd = -1).
Proof.
  unfold c10.try_make_tempfile, c10.detail.make_filename, bind.
  destruct (make_filename_posix_run P w) as [evs ->].
  fold (pattern_of w P). rewrite pattern_not_empty.
  unfold mkstemp, syscall.
  destruct (gen_tempname _ _ _) as [w2 [fd name]].
  destruct (decide (fd = -1)) as [->|Hfd].
  - by eexists _, _, _, _.
  - rewrite return_TempFile_run. eexists _, _, _, _.
    split; [done |]. split; [done |]. by split.
Qed.

Lemma try_make_tempdir_posix_trace P w :
  ∃ w1 r template created,
    c10.try_make_tempdir Posix P w = (w1, Ret r) ∧
    head (trace w1) = Some (ev_mkdtemp template created) ∧
    (r = None ↔ created = false).
Proof.
  unfold c10.try_make_tempdir, bind.
  destruct (make_filename_posix_run P w) as [evs ->].
  unfold mkdtemp, syscall.
  destruct (gen_tempname _ _ _) as [w2 [r name]].
  destruct (decide (0 ≤ r)) as [Hr|Hr].
  - unfold c10.TempDir.ctor. simpl. rewrite return_TempDir_run.
    eexists _, _, _, _. split; [done |]. split; [done |].
    rewrite bool_decide_eq_true_2 by done. by split.
  - eexists _, _, _, _. split; [done |]. split; [done |].
    by rewrite bool_decide_eq_false_2.
Qed.

Lemma name_generation_fails_run w :
  name_generation_fails w →
  ∃ w1, c10.detail.make_filename_win32 w = (w1, Ret "").
Proof.
  unfold name_generation_fails, c10.detail.make_filename_win32, bind,
    tmpnam_s, syscall.
  destruct (tmpnam_answers w) as [|[n|] rest]; simpl.
  - by eexists.
  - intros ->. by eexists.
  - by eexists.
Qed.

Lemma name_generation_fails_empty P w :
  name_generation_fails w →
  snd (c10.try_make_tempfile Win32 P w) = Ret None ∧
  snd (c10.try_make_tempdir Win32 P w) = Ret None.
Proof.
  intros [w1 H]%name_generation_fails_run. split.
  - unfold c10.try_make_tempfile, c10.detail.make_filename, bind. by rewrite H.
  - unfold c10.try_make_tempdir. replace 100%nat with (S 99) by done.
    cbn [c10.try_make_tempdir_loop]. unfold bind. by rewrite H.
Qed.

End Failure.

(** C3. [make_tempfile] (resp. [make_tempdir]) throws exactly when
    [try_make_tempfile] (resp. [try_make_tempdir]) returns the empty result:
    the fallible factory always returns; when its result is empty the
    throwing one raises [c10::Error] whose message ends with
    [strerror(errno)]; when its result holds a value the throwing one
    returns that very value, in the same world, without raising. *)
Theorem make_throws_iff_try_empty (plat : platform) (P : string) (w : World) :
  (∃ w1 r,
     c10.try_make_tempfile plat P w = (w1, Ret r) ∧
     match r with
     | Some t => c10.make_tempfile plat P w = (w1, Ret t)
     | None =>
         ∃ msg, c10.make_tempfile plat P w = (w1, Throw (c10_Error msg)) ∧
                msg = "Error generating temporary file: " +:+ strerror (errno w1) ∧
                Str.contains msg (strerror (errno w1))
     end) ∧
  (∃ w1 r,
     c10.try_make_tempdir plat P w = (w1, Ret r) ∧
     match r with
     | Some d => c10.make_tempdir plat P w = (w1, Ret d)
     | None =>
         ∃ msg, c10.make_tempdir plat P w = (w1, Throw (c10_Error msg)) ∧
                msg = "Error generating temporary directory: " +:+ strerror (errno w1) ∧
                Str.contains msg (strerror (errno w1))
     end).
Proof.
  split.
  - destruct (Failure.try_make_tempfile_returns plat P w) as (w1 & r & Hrun).
    exists w1, r. split; [exact Hrun |].
    rewrite (Failure.make_tempfile_of_try _ _ _ _ _ Hrun).
    destruct r; [done |]. eexists. split; [done |]. split; [done |].
    apply StrFacts.contains_app_l.
  - destruct (Failure.try_make_tempdir_returns plat P w) as (w1 & r & Hrun).
    exists w1, r. split; [exact Hrun |].
    rewrite (Failure.make_tempdir_of_try _ _ _ _ _ Hrun).
    destruct r; [done |]. eexists. split; [done |]. split; [done |].
    apply StrFacts.contains_app_l.
Qed.

(** The test of the spec: [TMPDIR] names a missing directory. *)
Example make_tempdir_lost_tmpdir :
  snd (c10.try_make_tempdir Posix "test-dir-" lost_tmpdir_world) = Ret None ∧
  snd (c10.make_tempdir Posix "test-dir-" lost_tmpdir_world)
  = Throw (c10_Error
      "Error generating temporary directory: No such file or directory").
Proof. by vm_compute. Qed.

(** C5. [try_make_tempfile] and [try_make_tempdir] never raise: on both
    platforms and in every world they return, with a value or with the
    empty result. On POSIX the result is empty exactly when the creation
    call ([mkstemp], [mkdtemp]) failed, whatever the cause; on Windows a
    failed name generation gives the empty result, and the directory
    search ends as [retry_spec] says, where a creation error and the
    exhaustion of the attempts both give the empty result. The result
    carries nothing but its emptiness. *)
Theorem try_make_never_raises (P : string) (w : World) :
  (∀ plat, (∃ w1 r, c10.try_make_tempfile plat P w = (w1, Ret r)) ∧
           (∃ w1 r, c10.try_make_tempdir plat P w = (w1, Ret r))) ∧
  (∃ w1 r template fd,
     c10.try_make_tempfile Posix P w = (w1, Ret r) ∧
     head (trace w1) = Some (ev_mkstemp template fd) ∧
     (r = None ↔ fd = -1)) ∧
  (∃ w1 r template created,
     c10.try_make_tempdir Posix P w = (w1, Ret r) ∧
     head (trace w1) = Some (ev_mkdtemp template created) ∧
     (r = None ↔ created = false)) ∧
  (name_generation_fails w →
     snd (c10.try_make_tempfile Win32 P w) = Ret None ∧
     snd (c10.try_make_tempdir Win32 P w) = Ret None) ∧
  (∃ w1 r, c10.try_make_tempdir Win32 P w = (w1, Ret r) ∧ retry_spec 100 w w1 r).
Proof.
  split_and!.
  - intros plat. split;
      [apply Failure.try_make_tempfile_returns | apply Failure.try_make_tempdir_returns].
  - apply Failure.try_make_tempfile_posix_trace.
  - apply Failure.try_make_tempdir_posix_trace.
  - apply Failure.name_generation_fails_empty.
  - destruct (Retry.loop_spec 100 w) as (w1 & r & Hrun & Hspec & _). eauto.
Qed.

Lemma try_make_never_raises_witness :
  snd (c10.try_make_tempfile Win32 "torch-file-" no_names_world) = Ret None ∧
  snd (c10.try_make_tempdir Win32 "torch-file-" no_names_world) = Ret None.
Proof.
  destruct (try_make_never_raises "torch-file-" no_names_world)
    as (_ & _ & _ & H & _).
  apply H. exact I.
Defined.

(** Failures of different causes, one and the same result. *)
Example failures_collapse :
  (let '(w1, r) := c10.try_make_tempfile Posix "torch-file-" lost_tmpdir_world in
   r = Ret None ∧ errno w1 = ENOENT) ∧
  (let '(w1, r) := c10.try_make_tempfile Posix "torch-file-"
                     (with_entropy [] posix_world) in
   r = Ret None ∧ errno w1 = EEXIST) ∧
  (let '(w1, r) := c10.try_make_tempfile Posix (String Str.NUL "x") posix_world in
   r = Ret None ∧ errno w1 = EINVAL) ∧
  (let '(w1, r) := c10.try_make_tempdir Win32 "torch-dir-" blocked_world in
   r = Ret None ∧ last_error w1 = ERROR_PATH_NOT_FOUND ∧
   tmpnam_calls (trace w1) = 1%nat).
Proof. by vm_compute. Qed.

(** C8. When [try_make_tempfile] returns the empty result, the file system
    is what it was before the call, and so is the set of open descriptors;
    conversely, if the file system changed then the call succeeded, and the
    change is one new file, the one the returned value names. *)
Theorem try_make_tempfile_failure_creates_nothing
    (plat : platform) (P : string) (w w1 : World) (r : option c10.TempFile.t) :
  c10.try_make_tempfile plat P w = (w1, Ret r) →
  (r = None → fs w1 = fs w ∧ fds w1 = fds w) ∧
  (fs w1 ≠ fs w →
   ∃ t, r = Some t ∧ fs w !! Str.c_str (c10.TempFile.name t) = None ∧
        fs w1 = <[Str.c_str (c10.TempFile.name t) := File]> (fs w)).
Proof.
  intros Hrun. destruct plat.
  - destruct (Factories.try_make_tempfile_posix_spec P w)
      as (w1' & r' & Hrun' & Hcases).
    rewrite Hrun in Hrun'. simplify_eq.
    destruct r' as [t|].
    + split; [done |]. intros _. exists t. split; [done |].
      destruct (Creation.try_make_tempfile_posix_creates P w w1' t Hrun)
        as (H1 & H2 & _). done.
    + destruct Hcases as [(_ & Hfs & Hfds)|(? & ? & ? & _ & ? & _)]; [|done].
      split; [done |]. intros Hne. by destruct Hne.
  - destruct (Factories.try_make_tempfile_win32_spec P w)
      as (w1' & r' & Hrun' & Hfs & Hfds & _).
    rewrite Hrun in Hrun'. simplify_eq.
    split; [done |]. intros Hne. by destruct Hne.
Qed.

Lemma try_make_tempfile_failure_creates_nothing_witness :
  fs (fst (c10.try_make_tempfile Posix "torch-file-" lost_tmpdir_world))
  = fs lost_tmpdir_world ∧
  fds (fst (c10.try_make_tempfile Posix "torch-file-" lost_tmpdir_world))
  = fds lost_tmpdir_world.
Proof.
  refine (proj1 (try_make_tempfile_failure_creates_nothing Posix "torch-file-"
                   lost_tmpdir_world _ None _) eq_refl).
  by vm_compute.
Defined.

(** ** Sequences of calls *)

Module Sequence.
Import Str StrFacts OS OSFacts Run Factories.

Lemma make_tempfile_inv plat P w w1 t :
  c10.make_tempfile plat P w = (w1, Ret t) →
  c10.try_make_tempfile plat P w = (w1, Ret (Some t)).
Proof.
  intros Hrun.
  destruct (Failure.try_make_tempfile_returns plat P w) as (w1' & r & Htry).
  rewrite (Failure.make_tempfile_of_try _ _ _ _ _ Htry) in Hrun.
  destruct r; by simplify_eq.
Qed.

Lemma make_tempfiles_S plat P n w w2 ts :
  make_tempfiles plat P (S n) w = (w2, Ret ts) →
  ∃ w1 t ts', c10.make_tempfile plat P w = (w1, Ret t) ∧
              make_tempfiles plat P n w1 = (w2, Ret ts') ∧ ts = t :: ts'.
Proof.
  cbn [make_tempfiles]. unfold bind.
  destruct (c10.make_tempfile plat P w) as [w1 [t| |]]; [|done..].
  destruct (make_tempfiles plat P n w1) as [w2' [ts'| |]] eqn:E; [|done..].
  intros [= <- <-]. by exists w1, t, ts'.
Qed.

Lemma make_tempfiles_posix_inv P n w w1 ts :
  make_tempfiles Posix P n w = (w1, Ret ts) →
  fs w ⊆ fs w1 ∧
  (∀ t, t ∈ ts → fs w !! c_str (c10.TempFile.name t) = None ∧
                 is_Some (fs w1 !! c_str (c10.TempFile.name t))) ∧
  NoDup ((c_str ∘ c10.TempFile.name) <$> ts).
Proof.
  revert w w1 ts. induction n as [|n IH]; intros w w2 ts.
  - intros [= <- <-]. split; [done |]. split; [|constructor].
    intros t Ht. by apply elem_of_nil in Ht.
  - intros (w1 & t & ts' & Hmk & Hrest & ->)%make_tempfiles_S.
    apply make_tempfile_inv in Hmk.
    destruct (Creation.try_make_tempfile_posix_creates P w w1 t Hmk)
      as (Hnone & Hfs & _).
    destruct (IH _ _ _ Hrest) as (Hsub & Hall & Hnd).
    assert (fs w ⊆ fs w1) as Hsub1.
    { rewrite Hfs. by apply insert_subseteq. }
    assert (fs w1 !! c_str (c10.TempFile.name t) = Some File) as Hin.
    { by rewrite Hfs, lookup_insert_eq. }
    split; [by etrans |]. split.
    + intros t' [->|Ht']%elem_of_cons.
      * split; [done |]. exists File. by apply (lookup_weaken _ _ _ _ Hin).
      * destruct (Hall t' Ht') as [Hn Hs]. split; [|done].
        by apply (lookup_weaken_None _ _ _ Hn).
    + rewrite fmap_cons. constructor; [|done].
      intros (t' & Heq & Ht')%list_elem_of_fmap.
      destruct (Hall t' Ht') as [Hn _]. simpl in Heq. congruence.
Qed.

Lemma make_tempfiles_win32_inv P n w w1 ts :
  make_tempfiles Win32 P n w = (w1, Ret ts) →
  tmpnam_names w = (c10.TempFile.name <$> ts) ++ tmpnam_names w1.
Proof.
  revert w w1 ts. induction n as [|n IH]; intros w w2 ts.
  - by intros [= <- <-].
  - intros (w1 & t & ts' & Hmk & Hrest & ->)%make_tempfiles_S.
    apply make_tempfile_inv in Hmk.
    destruct (try_make_tempfile_win32_spec P w)
      as (w1' & r & Hrun & _ & _ & _ & [[-> _]|(nm & -> & _ & Ha)]);
      rewrite Hmk in Hrun; simplify_eq.
    rewrite fmap_cons. simpl. rewrite <- (IH _ _ _ Hrest).
    unfold tmpnam_names. by rewrite Ha.
Qed.

(** The POSIX half of the existence property: the value [make_tempfile]
    returns names a regular file that was not there before and owns a
    descriptor that was not open before; with a valid prefix the final
    component of the name is the prefix and six generated characters. *)
Lemma make_tempfile_posix_creates_regular_file P w w1 t :
  c10.make_tempfile Posix P w = (w1, Ret t) →
  fs w !! c_str (c10.TempFile.name t) = None ∧
  fs w1 !! c_str (c10.TempFile.name t) = Some File ∧
  (c10.TempFile.fd t ∉ fds w) ∧ c10.TempFile.fd t ∈ fds w1 ∧
  (valid_prefix P → contains (Path.filename Posix (c10.TempFile.name t)) P).
Proof.
  intros Hmk%make_tempfile_inv.
  destruct (Creation.try_make_tempfile_posix_creates P w w1 t Hmk)
    as (Hnone & Hfs & _ & Hnew & Hfds & Hname).
  split_and!; try done.
  - by rewrite Hfs, lookup_insert_eq.
  - rewrite Hfds. apply elem_of_union_l, elem_of_singleton. done.
  - intros [v ->]%Hname. apply contains_app_r.
Qed.

(** On Windows [make_tempfile] only generates a name. *)
Lemma make_tempfile_win32_creates_nothing P w w1 t :
  c10.make_tempfile Win32 P w = (w1, Ret t) →
  fs w1 = fs w ∧ fds w1 = fds w ∧ c10.TempFile.fd t = -1.
Proof.
  intros Hmk%make_tempfile_inv.
  destruct (try_make_tempfile_win32_spec P w)
    as (w1' & r & Hrun & Hfs & Hfds & _ & [[-> _]|(nm & -> & _ & Ha)]);
    rewrite Hmk in Hrun; by simplify_eq.
Qed.

(** Paths returned by calls made in a row are pairwise different. *)
Lemma make_tempfiles_distinct plat P n w w1 ts :
  names_never_repeat plat w →
  make_tempfiles plat P n w = (w1, Ret ts) →
  NoDup (c10.TempFile.name <$> ts).
Proof.
  intros Hnames Hrun. destruct plat.
  - destruct (make_tempfiles_posix_inv P n w w1 ts Hrun) as (_ & _ & Hnd).
    rewrite list_fmap_compose in Hnd. by apply NoDup_fmap_1 in Hnd.
  - simpl in Hnames.
    rewrite (make_tempfiles_win32_inv P n w w1 ts Hrun) in Hnames.
    by apply NoDup_app in Hnames as [? _].
Qed.

End Sequence.

(** C2, on the input where the code fails it. On Windows
    [make_tempfile("test-pattern-")] returns a value without descriptor
    whose name is the name [tmpnam_s] generated; nothing was created: the
    file system is unchanged and the name is not an entry of it, so the
    path does not name a regular file. *)
Theorem make_tempfile_win32_names_no_file :
  let '(w1, r) := c10.make_tempfile Win32 "test-pattern-" win32_world in
  r = Ret (c10.TempFile.mk (-1) "C:\Temp\s1a4.") ∧
  fs w1 !! "C:\Temp\s1a4." = None ∧
  fs w1 = fs win32_world ∧
  fds w1 = fds win32_world.
Proof. by vm_compute. Qed.

(** The same call on POSIX, for comparison with the test of the repository. *)
Example make_tempfile_posix_test_pattern :
  let '(w1, r) := c10.make_tempfile Posix "test-pattern-" posix_world in
  r = Ret (c10.TempFile.mk 3 "/tmp/test-pattern-faaaaa") ∧
  fs w1 !! "/tmp/test-pattern-faaaaa" = Some File ∧
  Path.filename Posix "/tmp/test-pattern-faaaaa" = "test-pattern-faaaaa".
Proof. by vm_compute. Qed.

(** C9. Calls to [make_tempfile] made one after the other, with every
    returned value kept alive, return pairwise different paths: for two
    calls, and for any number [n] of calls. On POSIX this needs nothing; on
    Windows it rests on [tmpnam_s] generating a different name at each call. *)
Theorem sequential_tempfiles_distinct
    (plat : platform) (P : string) (w : World) :
  names_never_repeat plat w →
  (∀ w1 w2 t1 t2,
     c10.make_tempfile plat P w = (w1, Ret t1) →
     c10.make_tempfile plat P w1 = (w2, Ret t2) →
     c10.TempFile.name t1 ≠ c10.TempFile.name t2) ∧
  (∀ n w1 ts,
     make_tempfiles plat P n w = (w1, Ret ts) →
     NoDup (c10.TempFile.name <$> ts)).
Proof.
  intros Hnames.
  assert (∀ n w1 ts, make_tempfiles plat P n w = (w1, Ret ts) →
                     NoDup (c10.TempFile.name <$> ts)) as Hall.
  { intros n w1 ts. by apply Sequence.make_tempfiles_distinct. }
  split; [|exact Hall].
  intros w1 w2 t1 t2 H1 H2.
  specialize (Hall 2%nat w2 [t1; t2]).
  cbn [make_tempfiles] in Hall. unfold bind, ret in Hall.
  rewrite H1, H2 in Hall. specialize (Hall eq_refl).
  apply NoDup_cons in Hall as [Hnin _].
  intros Heq. apply Hnin. rewrite Heq. simpl. apply list_elem_of_here.
Qed.

Lemma sequential_tempfiles_distinct_witness :
  c10.TempFile.name (c10.TempFile.mk 3 "/tmp/torch-file-faaaaa")
  ≠ c10.TempFile.name (c10.TempFile.mk 4 "/tmp/torch-file-Douaaa").
Proof.
  refine (proj1 (sequential_tempfiles_distinct Posix "torch-file-" posix_world I)
            (fst (c10.make_tempfile Posix "torch-file-" posix_world))
            (fst (c10.make_tempfile Posix "torch-file-"
                    (fst (c10.make_tempfile Posix "torch-file-" posix_world))))
            _ _ _ _); by vm_compute.
Defined.


(** Two hundred calls in a row on a system where every random draw comes
    twice: all of them succeed, and the paths are pairwise different. *)
Example two_hundred_tempfiles :
  let run := make_tempfiles Posix "torch-file-" 200 busy_world in
  snd run = Ret (returned (snd run)) ∧
  length (returned (snd run)) = 200%nat ∧
  NoDup (c10.TempFile.name <$> returned (snd run)).
Proof.
  cbv zeta. set (run := make_tempfiles Posix "torch-file-" 200 busy_world).
  assert (snd run = Ret (returned (snd run))) as Hret
    by (vm_compute; reflexivity).
  split; [exact Hret |]. split; [vm_compute; reflexivity |].
  apply (Sequence.make_tempfiles_distinct Posix "torch-file-" 200 busy_world
           (fst run)); [exact I |].
  rewrite <- Hret. apply surjective_pairing.
Qed.

(** ** The name pattern *)

Module Pattern.
Import Str StrFacts OS OSFacts Run.

Lemma first_value_base_dir (e : gmap string string) :
  first_value c10.detail.env_variables "/tmp" e = base_dir e.
Proof.
  unfold base_dir, c10.detail.env_variables. simpl.
  destruct (e !! "TMPDIR"); simpl; [done |].
  destruct (e !! "TMP"); simpl; [done |].
  destruct (e !! "TEMP"); simpl; [done |].
  by destruct (e !! "TEMPDIR").
Qed.

Lemma make_filename_posix_base_dir (P : string) (w : World) :
  ∃ evs, c10.detail.make_filename_posix P w
         = (logs evs w, Ret (Path.append (base_dir (env w)) P +:+ "XXXXXX")).
Proof.
  destruct (make_filename_posix_run P w) as [evs H]. exists evs.
  by rewrite H, first_value_base_dir.
Qed.

End Pattern.

(** C6, as amended. On POSIX, for every prefix, [make_filename] touches
    nothing but the record of calls and returns a pattern that ends with
    the six-character placeholder [XXXXXX] and starts with the
    [std::filesystem] join of the base directory and the prefix: it is
    [<base-dir>/<prefix>XXXXXX] when the base directory is not empty and
    does not end in [/] and the prefix does not begin with [/];
    [<base-dir><prefix>XXXXXX] when the base directory is empty or ends in
    [/] and the prefix does not begin with [/]; and [<prefix>XXXXXX] when
    the prefix begins with [/]. The base directory is the value of the
    first of [TMPDIR], [TMP], [TEMP], [TEMPDIR] that is set, even to the
    empty string, and ["/tmp"] when none is set. *)
Theorem make_filename_pattern (name_prefix : string) (w : World) :
  ∃ evs pattern,
    c10.detail.make_filename_posix name_prefix w = (logs evs w, Ret pattern) ∧
    (∃ stem, pattern = stem +:+ "XXXXXX") ∧
    (Str.starts_with (Path.is_sep Posix) name_prefix = false →
     base_dir (env w) ≠ "" →
     Str.ends_with (Path.is_sep Posix) (base_dir (env w)) = false →
     pattern = base_dir (env w) +:+ "/" +:+ name_prefix +:+ "XXXXXX") ∧
    (Str.starts_with (Path.is_sep Posix) name_prefix = false →
     base_dir (env w) = "" ∨
     Str.ends_with (Path.is_sep Posix) (base_dir (env w)) = true →
     pattern = base_dir (env w) +:+ name_prefix +:+ "XXXXXX") ∧
    (Str.starts_with (Path.is_sep Posix) name_prefix = true →
     pattern = name_prefix +:+ "XXXXXX").
Proof.
  destruct (Pattern.make_filename_posix_base_dir name_prefix w) as [evs H].
  exists evs, (Path.append (base_dir (env w)) name_prefix +:+ "XXXXXX").
  split; [exact H |]. split; [by eexists |].
  unfold Path.append, Path.is_absolute, Path.has_filename.
  split_and!.
  - intros -> Hne%StrFacts.empty_false ->. rewrite Hne. simpl.
    by rewrite !StrFacts.app_assoc.
  - intros -> [->| ->]; [done |].
    by rewrite andb_false_r, StrFacts.app_assoc.
  - by intros ->.
Qed.

Lemma make_filename_pattern_witness :
  ∃ evs pattern,
    c10.detail.make_filename_posix "torch-file-" posix_world
    = (logs evs posix_world, Ret pattern) ∧
    pattern = "/tmp/torch-file-XXXXXX".
Proof.
  destruct (make_filename_pattern "torch-file-" posix_world)
    as (evs & pattern & Hrun & _ & H & _).
  exists evs, pattern. split; [exact Hrun |].
  apply H; [reflexivity | discriminate | reflexivity].
Defined.

(** C6, counterexample. With [TMPDIR] set to the empty string (and [TMP]
    set too) the base directory is the empty string, the announced
    pattern is ["/torch-file-XXXXXX"], in the root directory, and
    [make_filename] returns ["torch-file-XXXXXX"], in the working
    directory. *)
Lemma make_filename_empty_tmpdir :
  base_dir (env empty_tmpdir_world) = "" ∧
  claimed_pattern (env empty_tmpdir_world) "torch-file-" = "/torch-file-XXXXXX" ∧
  snd (c10.detail.make_filename_posix "torch-file-" empty_tmpdir_world)
  = Ret "torch-file-XXXXXX" ∧
  snd (c10.detail.make_filename_posix "torch-file-" empty_tmpdir_world)
  ≠ Ret (claimed_pattern (env empty_tmpdir_world) "torch-file-").
Proof. split_and!; [by vm_compute.. |]. vm_compute. discriminate. Qed.

(** Other inputs on which the join is not a concatenation with [/]. *)
Example make_filename_other_joins :
  snd (c10.detail.make_filename_posix "torch-file-"
         (mkWorld ∅ ∅ {[ "TEMP" := "/scratch/" ]} 0 0 [] [] [] willing))
  = Ret "/scratch/torch-file-XXXXXX" ∧
  snd (c10.detail.make_filename_posix "/var/run/x-" posix_world)
  = Ret "/var/run/x-XXXXXX".
Proof. by vm_compute. Qed.

(** On Windows the two names are the two names [tmpnam_s] generated. *)
Example two_tempfiles_win32 :
  names_never_repeat Win32 win32_world ∧
  returned (snd (make_tempfiles Win32 "torch-file-" 2 win32_world))
  = [c10.TempFile.mk (-1) "C:\Temp\s1a4."; c10.TempFile.mk (-1) "C:\Temp\s1a4.1"].
Proof.
  split; [|by vm_compute].
  unfold names_never_repeat.
  apply (bool_decide_unpack (NoDup (tmpnam_names win32_world))). by vm_compute.
Qed.

(** ** Creation and destruction together *)

Module Lifetime.
Import Str StrFacts OS OSFacts Run Factories.

Lemma make_tempdir_inv plat P w w1 d :
  c10.make_tempdir plat P w = (w1, Ret d) →
  c10.try_make_tempdir plat P w = (w1, Ret (Some d)).
Proof.
  intros Hrun.
  destruct (Failure.try_make_tempdir_returns plat P w) as (w1' & r & Htry).
  rewrite (Failure.make_tempdir_of_try _ _ _ _ _ Htry) in Hrun.
  destruct r; by simplify_eq.
Qed.



Lemma tempdir_name P w w1 d :
  c10.try_make_tempdir Posix P w = (w1, Ret (Some d)) →
  ∃ stem v, c_str (pattern_of w P) = stem +:+ placeholder ∧
            c10.TempDir.name d = stem +:+ fill 6 v.
Proof.
  intros Hrun.
  destruct (try_make_tempdir_posix_spec P w)
    as (w1' & r & Hrun' & [(-> & _)|(stem & v & Ht & -> & _)]);
    rewrite Hrun in Hrun'; simplify_eq.
  by exists stem, v.
Qed.






End Lifetime.





(** X3. On POSIX, when [make_tempdir] returns, the path it returns was not
    an entry before the call and is a directory after it, no other entry
    and no descriptor changed, the path has no NUL byte, and with a prefix
    that is valid as a path component its final component is the prefix
    followed by six generated characters. *)
Theorem make_tempdir_posix_creates_directory
    (P : string) (w w1 : World) (d : c10.TempDir.t) :
  c10.make_tempdir Posix P w = (w1, Ret d) →
  fs w !! c10.TempDir.name d = None ∧
  fs w1 !! c10.TempDir.name d = Some Dir ∧
  (∀ q, q ≠ c10.TempDir.name d → fs w1 !! q = fs w !! q) ∧
  fds w1 = fds w ∧
  Str.c_str (c10.TempDir.name d) = c10.TempDir.name d ∧
  (valid_prefix P →
   ∃ v, Path.filename Posix (c10.TempDir.name d) = P +:+ OS.fill 6 v ∧
        Str.contains (Path.filename Posix (c10.TempDir.name d)) P).
Proof.
  intros Hmk%Lifetime.make_tempdir_inv.
  destruct (Creation.try_make_tempdir_posix_creates P w w1 d Hmk)
    as (Hnone & Hfs & Hc & Hfds).
  split_and!; try done.
  - by rewrite Hfs, lookup_insert_eq.
  - intros q Hq. by rewrite Hfs, lookup_insert_ne.
  - intros [Hsep Hnul].
    destruct (Lifetime.tempdir_name P w w1 d Hmk) as (stem & v & Ht & Hname).
    exists v. rewrite Hname.
    rewrite (StrFacts.c_str_id _ (Creation.pattern_no_nul w P Hnul)) in Ht.
    destruct (Creation.pattern_dir w P Hsep) as (dir & Hd & Hp).
    rewrite Hp in Ht. apply Creation.app_inv_tail in Ht as <-.
    rewrite StrFacts.app_assoc.
    rewrite (Creation.filename_after_dir Posix dir (P +:+ OS.fill 6 v) Hd).
    + split; [done | apply StrFacts.contains_app_r].
    + by rewrite Creation.has_sep_app, Hsep, OSFacts.fill_no_sep.
Qed.

Lemma make_tempdir_posix_creates_directory_witness :
  ∃ v, Path.filename Posix (c10.TempDir.name (c10.TempDir.mk "/tmp/torch-dir-faaaaa"))
       = "torch-dir-" +:+ OS.fill 6 v ∧
       Str.contains
         (Path.filename Posix (c10.TempDir.name (c10.TempDir.mk "/tmp/torch-dir-faaaaa")))
         "torch-dir-".
Proof.
  refine (proj2 (proj2 (proj2 (proj2 (proj2
            (make_tempdir_posix_creates_directory "torch-dir-" posix_world
               after_make_tempdir (c10.TempDir.mk "/tmp/torch-dir-faaaaa") _))))) _).
  - by vm_compute.
  - split; by vm_compute.
Defined.

(** X4. When the name of a [TempFile] or [TempDir] is not empty and names
    a directory that still has entries, the destructor ends in
    [std::terminate]: [std::filesystem::remove] throws inside it. Nothing
    is removed, and the descriptor of a [TempFile] is not closed. *)
Theorem dtor_terminates_on_populated_directory (plat : platform) (w : World) :
  (∀ t : c10.TempFile.t,
     c10.TempFile.name t ≠ "" →
     fs w !! Str.c_str (c10.TempFile.name t) = Some Dir →
     OS.dir_empty plat (fs w) (Str.c_str (c10.TempFile.name t)) = false →
     ∃ w1, c10.TempFile.dtor plat t w = (w1, Terminate) ∧
           fs w1 = fs w ∧ fds w1 = fds w) ∧
  (∀ d : c10.TempDir.t,
     c10.TempDir.name d ≠ "" →
     fs w !! Str.c_str (c10.TempDir.name d) = Some Dir →
     OS.dir_empty plat (fs w) (Str.c_str (c10.TempDir.name d)) = false →
     ∃ w1, c10.TempDir.dtor plat d w = (w1, Terminate) ∧
           fs w1 = fs w ∧ fds w1 = fds w).
Proof.
  split.
  - intros t Hne Hdir Hfull.
    destruct (Destruction.TempFile_dtor_run plat t w Hne)
      as (w1 & o & Hrun &
          [([?|[_ ?]] & _)|[(_ & ? & _)|(_ & -> & ? & ?)]]);
      [congruence.. |].
    by exists w1.
  - intros d Hne Hdir Hfull.
    destruct (Destruction.TempDir_dtor_run plat d w Hne)
      as (w1 & o & Hrun & ? &
          [([?|[_ ?]] & _)|[(_ & ? & _)|(_ & -> & ?)]]);
      [congruence.. |].
    by exists w1.
Qed.

Lemma dtor_terminates_on_populated_directory_witness :
  ∃ w1, c10.TempDir.dtor Posix (c10.TempDir.mk "/tmp/torch-dir-faaaaa")
          (fst populated_tempdir) = (w1, Terminate) ∧
        fs w1 = fs (fst populated_tempdir) ∧ fds w1 = fds (fst populated_tempdir).
Proof.
  apply (proj2 (dtor_terminates_on_populated_directory Posix (fst populated_tempdir))
           (c10.TempDir.mk "/tmp/torch-dir-faaaaa")); [done | by vm_compute..].
Defined.

(** ** When creation succeeds *)

Module Success.
Import Str StrFacts OS OSFacts Run Factories.

Lemma has_sep_slash plat (r : string) :
  Path.has_sep plat (String "/" r) = true.
Proof. unfold Path.has_sep. simpl. by destruct plat. Qed.

Lemma before_last_sep_dir plat (b r : string) :
  Path.has_sep plat r = false →
  Path.before_last_sep plat (b +:+ String "/" r) = b.
Proof.
  intros Hr. induction b as [|c b IH].
  - rewrite app_nil_l. simpl. by rewrite Hr.
  - rewrite app_cons. simpl.
    by rewrite Creation.has_sep_app, has_sep_slash, orb_true_r, IH.
Qed.

Lemma parent_dir plat (b r : string) :
  b ≠ "" → Path.has_sep plat r = false →
  Path.parent plat (b +:+ "/" +:+ r) = b.
Proof.
  intros Hb Hr. change ("/" +:+ r) with (String "/" r). unfold Path.parent.
  rewrite Creation.has_sep_app, has_sep_slash, orb_true_r.
  rewrite before_last_sep_dir by done.
  apply empty_false in Hb. by rewrite Hb.
Qed.

Lemma fill_not_empty (a : string) (v : N) : empty (a +:+ fill 6 v) = false.
Proof.
  apply empty_false. intros E. apply (f_equal String.length) in E.
  rewrite length_app, fill_length in E. simpl in E. lia.
Qed.

(** A candidate name that passes every check but that of being free. *)
Lemma create_error_candidate (name dir : string) (w : World) :
  name ≠ "" →
  Z.of_nat (String.length name) < PATH_MAX →
  Path.parent Posix name = dir → fs w !! dir = Some Dir →
  Z.of_nat (String.length (Path.filename Posix name)) ≤ NAME_MAX →
  refuses w name = None →
  Path.plain Posix name = true →
  ∀ kind, create_error Posix kind name w
          = match fs w !! name with Some _ => Some EEXIST | None => None end.
Proof.
  intros Hne%empty_false Hlen Hpar Hdir Hname Hok [_ Hdots]%PathFacts.plain_spec
    kind.
  unfold create_error, reach_error. rewrite Hne.
  rewrite !(Run.refused_None _ _ _ Hok).
  destruct (fs w !! name); [done |].
  rewrite bool_decide_eq_false_2 by lia. rewrite Hpar, Hdir.
  rewrite bool_decide_eq_false_2 by lia. by rewrite Hdots.
Qed.

Section try_names.
Variable tryfunc : string → World → World * Z.
Variable kind : node.
Hypothesis Hfree : ∀ name w,
  create_error Posix kind name w = None →
  ∃ w1 r, tryfunc name w = (w1, r) ∧ 0 ≤ r.
Hypothesis Htaken : ∀ name w e,
  create_error Posix kind name w = Some e →
  tryfunc name w = (with_errno e w, -1).

(** The search succeeds as soon as one draw gives a free name, when the
    candidates lie in an existing directory, are of admissible length and
    are not refused. *)
Lemma try_names_succeeds (stem dir : string) (draws : list N) (w : World) :
  fs w !! dir = Some Dir →
  (∀ v, Path.parent Posix (stem +:+ fill 6 v) = dir) →
  (∀ v, Z.of_nat (String.length (stem +:+ fill 6 v)) < PATH_MAX ∧
        Z.of_nat (String.length (Path.filename Posix (stem +:+ fill 6 v)))
        ≤ NAME_MAX) →
  (∀ v, v ∈ draws → refuses w (stem +:+ fill 6 v) = None) →
  (∃ v, v ∈ draws ∧ fs w !! (stem +:+ fill 6 v) = None) →
  ∃ w1 r name, try_names tryfunc stem draws w = (w1, (r, name)) ∧ 0 ≤ r.
Proof.
  intros Hdir Hpar Hlen. revert w Hdir.
  induction draws as [|v rest IH]; intros w Hdir Hok (v0 & Hin & Hv0).
  { by apply elem_of_nil in Hin. }
  cbn [try_names].
  assert (create_error Posix kind (stem +:+ fill 6 v) (with_entropy rest w)
          = match fs w !! (stem +:+ fill 6 v) with
            | Some _ => Some EEXIST
            | None => None
            end) as Hc.
  { apply (create_error_candidate _ dir (with_entropy rest w));
      try done; try apply Hlen.
    - apply empty_false, fill_not_empty.
    - apply (Hok v), list_elem_of_here.
    - apply Creation.made_name_plain. }
  destruct (fs w !! (stem +:+ fill 6 v)) eqn:Hv.
  - rewrite (Htaken _ _ _ Hc). simpl.
    destruct (IH (with_errno EEXIST (with_entropy rest w)))
      as (w1 & r & name & -> & Hr); [done | | | by eexists _, _, _].
    + intros v' Hv'. apply Hok. by apply list_elem_of_further.
    + exists v0. split; [|done].
      apply elem_of_cons in Hin as [->|?]; [congruence | done].
  - destruct (Hfree _ _ Hc) as (w1 & r & -> & Hr).
    rewrite decide_True by done. by eexists _, _, _.
Qed.
End try_names.

Lemma open_excl_free name w :
  create_error Posix File name w = None →
  ∃ w1 r, open_excl name w = (w1, r) ∧ 0 ≤ r.
Proof.
  intros E. unfold open_excl. rewrite E. eexists _, _. split; [done |].
  apply next_fd_nonneg.
Qed.

Lemma open_excl_taken name w e :
  create_error Posix File name w = Some e →
  open_excl name w = (with_errno e w, -1).
Proof. intros E. unfold open_excl. by rewrite E. Qed.

Lemma mkdir_free name w :
  create_error Posix Dir name w = None →
  ∃ w1 r, mkdir name w = (w1, r) ∧ 0 ≤ r.
Proof. intros E. unfold mkdir. rewrite E. by eexists _, _. Qed.

Lemma mkdir_taken name w e :
  create_error Posix Dir name w = Some e →
  mkdir name w = (with_errno e w, -1).
Proof. intros E. unfold mkdir. by rewrite E. Qed.

(** With a valid prefix and a base directory that has a final component,
    the pattern is the base, a separator, the prefix and the placeholder,
    and holds no NUL. *)
Lemma pattern_plain (P : string) (w : World) :
  valid_prefix P → Path.has_filename (base_dir (env w)) = true →
  pattern_of w P = (base_dir (env w) +:+ "/" +:+ P) +:+ placeholder ∧
  c_str (pattern_of w P) = pattern_of w P.
Proof.
  intros [Hsep Hnul] Hbase. split.
  - unfold pattern_of, Path.concat, Path.append.
    rewrite Pattern.first_value_base_dir, Hbase.
    assert (Path.is_absolute P = false) as ->; [|done].
    destruct P as [|c P]; [done |]. unfold Path.has_sep in Hsep. simpl in *.
    by apply orb_false_elim in Hsep as [-> _].
  - by apply c_str_id, Creation.pattern_no_nul.
Qed.

End Success.

(** X5. On POSIX, [make_tempfile] and [make_tempdir] do succeed when the
    prefix is valid as a path component and leaves room for six more
    characters within [NAME_MAX]; the base directory (the first variable
    set, or ["/tmp"]) is not empty, does not end in [/], is an existing
    directory, and is short enough for the whole name to stay below
    [PATH_MAX]; the system refuses none of the names the random draws of
    the C library give (it allows the process to write there and has room
    and descriptors left); and at least one of these names is still free. *)
Theorem make_temp_succeeds (P : string) (w : World) :
  valid_prefix P →
  Z.of_nat (String.length P) + 6 ≤ NAME_MAX →
  Path.has_filename (base_dir (env w)) = true →
  Z.of_nat (String.length (base_dir (env w))) + 1
    + Z.of_nat (String.length P) + 6 < PATH_MAX →
  fs w !! base_dir (env w) = Some Dir →
  (∀ v, v ∈ entropy w →
        refuses w ((base_dir (env w) +:+ "/" +:+ P) +:+ OS.fill 6 v) = None) →
  (∃ v, v ∈ entropy w ∧
        fs w !! ((base_dir (env w) +:+ "/" +:+ P) +:+ OS.fill 6 v) = None) →
  (∃ w1 t, c10.make_tempfile Posix P w = (w1, Ret t)) ∧
  (∃ w1 d, c10.make_tempdir Posix P w = (w1, Ret d)).
Proof.
  intros HP HPlen Hbase Hlen Hdir Hok Hdraw.
  destruct (Success.pattern_plain P w HP Hbase) as [Hpat Hc].
  assert (base_dir (env w) ≠ "") as Hne.
  { intros E. by rewrite E in Hbase. }
  assert (∀ v, Path.has_sep Posix (P +:+ OS.fill 6 v) = false) as Hnosep.
  { intros v. destruct HP as [Hsep _].
    by rewrite Creation.has_sep_app, Hsep, OSFacts.fill_no_sep. }
  assert (∀ v, Path.parent Posix
                 ((base_dir (env w) +:+ "/" +:+ P) +:+ OS.fill 6 v)
               = base_dir (env w)) as Hpar.
  { intros v. rewrite !StrFacts.app_assoc. by apply Success.parent_dir. }
  assert (∀ v,
    Z.of_nat (String.length ((base_dir (env w) +:+ "/" +:+ P) +:+ OS.fill 6 v))
      < PATH_MAX ∧
    Z.of_nat (String.length
                (Path.filename Posix
                   ((base_dir (env w) +:+ "/" +:+ P) +:+ OS.fill 6 v)))
      ≤ NAME_MAX) as Hlens.
  { intros v. split.
    - rewrite !StrFacts.length_app, OSFacts.fill_length. simpl. lia.
    - rewrite !StrFacts.app_assoc, <- (StrFacts.app_assoc (base_dir (env w)) "/").
      rewrite Creation.filename_after_dir.
      + rewrite StrFacts.length_app, OSFacts.fill_length. lia.
      + right. apply Creation.ends_with_snoc.
      + apply Hnosep. }
  split.
  - destruct (Failure.try_make_tempfile_returns Posix P w) as (w1 & r & Htry).
    rewrite (Failure.make_tempfile_of_try _ _ _ _ _ Htry).
    destruct r as [t|]; [by eexists _, _ |]. exfalso.
    revert Htry. unfold c10.try_make_tempfile, c10.detail.make_filename, bind.
    destruct (Run.make_filename_posix_run P w) as [evs ->].
    fold (pattern_of w P). rewrite Factories.pattern_not_empty.
    unfold OS.mkstemp, syscall, OS.gen_tempname.
    rewrite Hc, Hpat, StrFacts.strip_suffix_app.
    destruct (Success.try_names_succeeds OS.open_excl File Success.open_excl_free
                Success.open_excl_taken _ (base_dir (env w)) (entropy w)
                (logs evs w) Hdir Hpar Hlens Hok Hdraw)
      as (w2 & fd & name & Hrun & Hfd).
    simpl entropy. rewrite Hrun.
    rewrite decide_False by lia. by rewrite Run.return_TempFile_run.
  - destruct (Failure.try_make_tempdir_returns Posix P w) as (w1 & r & Htry).
    rewrite (Failure.make_tempdir_of_try _ _ _ _ _ Htry).
    destruct r as [d|]; [by eexists _, _ |]. exfalso.
    revert Htry. unfold c10.try_make_tempdir, bind.
    destruct (Run.make_filename_posix_run P w) as [evs ->].
    fold (pattern_of w P).
    unfold OS.mkdtemp, syscall, OS.gen_tempname.
    rewrite Hc, Hpat, StrFacts.strip_suffix_app.
    destruct (Success.try_names_succeeds OS.mkdir Dir Success.mkdir_free
                Success.mkdir_taken _ (base_dir (env w)) (entropy w)
                (logs evs w) Hdir Hpar Hlens Hok Hdraw)
      as (w2 & rr & name & Hrun & Hr).
    simpl entropy. rewrite Hrun.
    rewrite decide_True by lia. unfold c10.TempDir.ctor. simpl.
    by rewrite Run.return_TempDir_run.
Qed.

Lemma make_temp_succeeds_witness :
  (∃ w1 t, c10.make_tempfile Posix "torch-file-" posix_world = (w1, Ret t)) ∧
  (∃ w1 d, c10.make_tempdir Posix "torch-file-" posix_world = (w1, Ret d)).
Proof.
  apply make_temp_succeeds.
  - split; by vm_compute.
  - by vm_compute.
  - by vm_compute.
  - by vm_compute.
  - by vm_compute.
  - done.
  - exists 5%N. split; [apply list_elem_of_here | by vm_compute].
Defined.

(** The two failures the conditions on length and on the system exclude:
    a prefix of 250 characters, valid as a path component, gives names of
    256 characters and "File name too long"; a base directory the process
    may not write to gives "Permission denied". *)
Example make_tempfile_name_too_long :
  let P := OS.fill 250 0 in
  valid_prefix P ∧
  snd (c10.make_tempfile Posix P posix_world)
  = Throw (c10_Error "Error generating temporary file: File name too long").
Proof. split; [split |]; by vm_compute. Qed.

Example make_tempdir_permission_denied :
  snd (c10.make_tempdir Posix "torch-dir-"
         (with_refuses locked_scratch scratch_world))
  = Throw (c10_Error "Error generating temporary directory: Permission denied").
Proof. by vm_compute. Qed.

(** ** Directories on Windows, and directories in a row *)

Module Directories.
Import Str StrFacts OS OSFacts Run Factories.

Lemma mkdirs_spec (fuel : nat) (p : string) (m m' : gmap string node) :
  mkdirs fuel p m = Some m' →
  m' !! p = Some Dir ∧
  ∀ q, m' !! q = m !! q ∨ (m !! q = None ∧ m' !! q = Some Dir).
Proof.
  revert p m'. induction fuel as [|fuel IH]; intros p m'; simpl.
  - destruct (m !! p) as [[]|] eqn:E; [done | | done].
    intros [= <-]. split; [done | by left].
  - destruct (m !! p) as [[]|] eqn:E; [done | |].
    + intros [= <-]. split; [done | by left].
    + destruct (mkdirs fuel (Path.parent Win32 p) m) as [m''|] eqn:E2; [|done].
      intros [= <-]. destruct (IH _ _ E2) as [_ Hall].
      split; [by rewrite lookup_insert_eq |].
      intros q. destruct (decide (q = p)) as [->|Hne].
      * right. by rewrite lookup_insert_eq.
      * rewrite lookup_insert_ne by done. apply Hall.
Qed.

Lemma mkdirs_subseteq (fuel : nat) (p : string) (m m' : gmap string node) :
  mkdirs fuel p m = Some m' → m ⊆ m'.
Proof.
  intros [_ Hall]%mkdirs_spec. apply map_subseteq_spec. intros q x Hq.
  destruct (Hall q) as [->|[? _]]; congruence.
Qed.

Lemma create_directories_spec (p : string) (w w1 : World) (b : bool) :
  create_directories p w = (w1, Ret b) →
  fds w1 = fds w ∧
  if b then fs w !! c_str p = None ∧ fs w1 !! c_str p = Some Dir ∧ fs w ⊆ fs w1
  else fs w1 = fs w.
Proof.
  unfold create_directories, syscall.
  destruct (fs w !! c_str p) eqn:E; [by intros [= <- <-] |].
  destruct (refused (Create Dir) (c_str p) w); [by intros [= <- <-] |].
  destruct (mkdirs _ _ _) as [m|] eqn:E2; intros [= <- <-]; [|done].
  split; [done |]. split; [done |]. simpl.
  split; [by apply mkdirs_spec in E2 as [? _] | by apply mkdirs_subseteq in E2].
Qed.

(** What one attempt does to the file system. *)
Lemma attempt_spec (w w1 : World) (a : attempt_result) :
  attempt w = (w1, a) →
  fds w1 = fds w ∧
  match a with
  | Created d =>
      d ≠ "" ∧ c_str d = d ∧
      fs w !! d = None ∧ fs w1 !! d = Some Dir ∧ fs w ⊆ fs w1
  | _ => fs w1 = fs w
  end.
Proof.
  unfold attempt.
  destruct (make_filename_win32_run w)
    as (w' & name & -> & Hfs & Hfds & _ & _ & Hname).
  destruct (empty name) eqn:Hempty; [by intros [= <- <-] |].
  destruct (create_directories name w') as [w2 [b| |]] eqn:E;
    [|unfold create_directories, syscall in E;
      destruct (fs w' !! c_str name);
        [|destruct (refused (Create Dir) (c_str name) w');
          [|destruct (mkdirs _ _ _)]];
        done..].
  apply create_directories_spec in E as [Hfds2 Hb].
  assert (c_str name = name) as Hc.
  { destruct Hname as [(-> & _)|(n & -> & _)]; [done |].
    apply c_str_id, c_str_no_nul. }
  destruct b.
  - intros [= <- <-]. rewrite Hc, Hfs in Hb. rewrite Hfds2.
    split; [done |]. split; [by apply empty_false |]. done.
  - destruct (decide _); intros [= <- <-]; by rewrite Hb, Hfs, Hfds2.
Qed.

Lemma loop_creates (n : nat) (w w1 : World) (r : option c10.TempDir.t) :
  c10.try_make_tempdir_loop n w = (w1, Ret r) →
  fds w1 = fds w ∧
  match r with
  | Some d =>
      c10.TempDir.name d ≠ "" ∧ c_str (c10.TempDir.name d) = c10.TempDir.name d ∧
      fs w !! c10.TempDir.name d = None ∧
      fs w1 !! c10.TempDir.name d = Some Dir ∧ fs w ⊆ fs w1
  | None => fs w1 = fs w
  end.
Proof.
  revert w. induction n as [|n IH]; intros w.
  - by intros [= <- <-].
  - rewrite Retry.loop_step. destruct (attempt w) as [w' a] eqn:E.
    apply attempt_spec in E as [Hfds Ha].
    destruct a.
    + by intros [= <- <-].
    + by intros [= <- <-].
    + intros [Hfds' Hr]%IH. rewrite Hfds', Hfds. split; [done |].
      destruct r as [d|]; by rewrite <- Ha.
    + by intros [= <- <-].
Qed.

(** On either platform, the directory [make_tempdir] returns was not an
    entry before the call, is one after it, and earlier entries are kept. *)
Lemma make_tempdir_creates plat P w w1 d :
  c10.make_tempdir plat P w = (w1, Ret d) →
  fs w !! c10.TempDir.name d = None ∧
  fs w1 !! c10.TempDir.name d = Some Dir ∧
  fs w ⊆ fs w1.
Proof.
  intros Hmk%Lifetime.make_tempdir_inv. destruct plat.
  - destruct (Creation.try_make_tempdir_posix_creates P w w1 d Hmk)
      as (Hnone & Hfs & _).
    split; [done |]. rewrite Hfs.
    split; [by rewrite lookup_insert_eq | by apply insert_subseteq].
  - apply loop_creates in Hmk as (_ & _ & _ & ? & ? & ?). done.
Qed.

Lemma make_tempdirs_S plat P n w w2 ds :
  make_tempdirs plat P (S n) w = (w2, Ret ds) →
  ∃ w1 d ds', c10.make_tempdir plat P w = (w1, Ret d) ∧
              make_tempdirs plat P n w1 = (w2, Ret ds') ∧ ds = d :: ds'.
Proof.
  cbn [make_tempdirs]. unfold bind.
  destruct (c10.make_tempdir plat P w) as [w1 [d| |]]; [|done..].
  destruct (make_tempdirs plat P n w1) as [w2' [ds'| |]] eqn:E; [|done..].
  intros [= <- <-]. by exists w1, d, ds'.
Qed.

Lemma make_tempdirs_inv plat P n w w1 ds :
  make_tempdirs plat P n w = (w1, Ret ds) →
  fs w ⊆ fs w1 ∧
  (∀ d, d ∈ ds → fs w !! c10.TempDir.name d = None) ∧
  NoDup (c10.TempDir.name <$> ds).
Proof.
  revert w w1 ds. induction n as [|n IH]; intros w w2 ds.
  - intros [= <- <-]. split; [done |]. split; [|constructor].
    intros d Hd. by apply elem_of_nil in Hd.
  - intros (w1 & d & ds' & Hmk & Hrest & ->)%make_tempdirs_S.
    apply make_tempdir_creates in Hmk as (Hnone & Hin & Hsub1).
    destruct (IH _ _ _ Hrest) as (Hsub & Hall & Hnd).
    split; [by etrans |]. split.
    + intros d' [->|Hd']%elem_of_cons; [done |].
      by apply (lookup_weaken_None _ _ _ (Hall d' Hd')).
    + rewrite fmap_cons. constructor; [|done].
      intros (d' & Heq & Hd')%list_elem_of_fmap.
      specialize (Hall d' Hd'). congruence.
Qed.

End Directories.

(** X6. On Windows, when [try_make_tempdir] returns a value, its name is
    not empty, was not an entry of the file system before the call and is
    a directory after it; the entries that existed are all kept, and no
    descriptor is opened. *)
Theorem try_make_tempdir_win32_creates_directory
    (P : string) (w w1 : World) (d : c10.TempDir.t) :
  c10.try_make_tempdir Win32 P w = (w1, Ret (Some d)) →
  c10.TempDir.name d ≠ "" ∧
  fs w !! c10.TempDir.name d = None ∧
  fs w1 !! c10.TempDir.name d = Some Dir ∧
  fs w ⊆ fs w1 ∧
  fds w1 = fds w.
Proof.
  intros Hrun. apply Directories.loop_creates in Hrun as (? & ? & _ & ? & ? & ?).
  done.
Qed.

Lemma try_make_tempdir_win32_creates_directory_witness :
  c10.TempDir.name (c10.TempDir.mk (taken_name 2)) ≠ "" ∧
  fs (crowded_world 2) !! c10.TempDir.name (c10.TempDir.mk (taken_name 2)) = None ∧
  fs (fst (c10.try_make_tempdir Win32 "torch-dir-" (crowded_world 2)))
    !! c10.TempDir.name (c10.TempDir.mk (taken_name 2)) = Some Dir ∧
  fs (crowded_world 2)
    ⊆ fs (fst (c10.try_make_tempdir Win32 "torch-dir-" (crowded_world 2))) ∧
  fds (fst (c10.try_make_tempdir Win32 "torch-dir-" (crowded_world 2)))
    = fds (crowded_world 2).
Proof.
  apply (try_make_tempdir_win32_creates_directory "torch-dir-").
  by vm_compute.
Defined.

(** X7. Calls to [make_tempdir] made one after the other, with every
    returned value kept alive, return pairwise different paths, on POSIX
    and on Windows alike: each call creates the directory it names. *)
Theorem sequential_tempdirs_distinct
    (plat : platform) (P : string) (n : nat) (w w1 : World)
    (ds : list c10.TempDir.t) :
  make_tempdirs plat P n w = (w1, Ret ds) →
  NoDup (c10.TempDir.name <$> ds).
Proof. intros Hrun. by apply Directories.make_tempdirs_inv in Hrun as (_ & _ & ?). Qed.

Lemma sequential_tempdirs_distinct_witness :
  NoDup (c10.TempDir.name <$>
           returned (snd (make_tempdirs Win32 "torch-dir-" 2 win32_world))).
Proof.
  apply (sequential_tempdirs_distinct Win32 "torch-dir-" 2 win32_world
           (fst (make_tempdirs Win32 "torch-dir-" 2 win32_world))).
  by vm_compute.
Defined.

(** ** What destruction and move assignment leave alone *)

Module Frame.
Import Str StrFacts OS OSFacts Run.

Lemma fs_remove_frame plat p w w1 (r : outcome bool) :
  fs_remove plat p w = (w1, r) →
  (∀ q, q ≠ c_str p → fs w1 !! q = fs w !! q) ∧
  fds w1 = fds w ∧ env w1 = env w.
Proof.
  unfold fs_remove.
  destruct (remove_error plat (c_str p) w) as [e|].
  - destruct (decide (e = ENOENT)); by intros [= <- <-].
  - intros [= <- <-]. simpl. split; [|done]. intros q Hq.
    by rewrite lookup_delete_ne.
Qed.

Lemma close_frame fd w w1 (r : outcome Z) :
  close fd w = (w1, r) →
  fs w1 = fs w ∧ env w1 = env w ∧ (∀ x, x ≠ fd → x ∈ fds w1 ↔ x ∈ fds w).
Proof.
  unfold close, syscall.
  destruct (decide (fd ∈ fds w)); intros [= <- <-]; simpl;
    (split; [done |]); (split; [done |]); intros x Hx; [|done].
  rewrite elem_of_difference, elem_of_singleton. tauto.
Qed.

Lemma TempFile_dtor_frame plat (t : c10.TempFile.t) w w1 (r : outcome unit) :
  c10.TempFile.dtor plat t w = (w1, r) →
  (∀ q, q ≠ c_str (c10.TempFile.name t) → fs w1 !! q = fs w !! q) ∧
  (∀ x, x ≠ c10.TempFile.fd t → x ∈ fds w1 ↔ x ∈ fds w) ∧
  env w1 = env w.
Proof.
  unfold c10.TempFile.dtor, noexcept, bind.
  destruct (empty (c10.TempFile.name t)); simpl; [by intros [= <- <-] |].
  destruct (fs_remove plat (c10.TempFile.name t) w) as [w' o] eqn:E.
  apply fs_remove_frame in E as (Hfs & Hfds & Henv).
  destruct o as [b| |]; [|intros [= <- <-]; by rewrite Hfds..].
  destruct plat; [|intros [= <- <-]; by rewrite Hfds].
  destruct (decide (c10.TempFile.fd t >= 0)); [|intros [= <- <-]; by rewrite Hfds].
  destruct (close (c10.TempFile.fd t) w') as [w'' o'] eqn:E2.
  apply close_frame in E2 as (Hfs2 & Henv2 & Hfds2).
  destruct o'; intros [= <- <-]; rewrite Hfs2, Henv2;
    (split; [done |]); (split; [|done]);
    intros x Hx; by rewrite Hfds2, Hfds.
Qed.

End Frame.

(** X8. Whatever its end, [~TempFile] touches nothing but its own
    resource: every path other than the one it names is in the file system
    exactly as before, every descriptor other than its own is open exactly
    when it was, and the environment is unchanged. *)
Theorem TempFile_dtor_touches_only_its_own
    (plat : platform) (t : c10.TempFile.t) (w : World) :
  let w1 := fst (c10.TempFile.dtor plat t w) in
  (∀ q, q ≠ Str.c_str (c10.TempFile.name t) → fs w1 !! q = fs w !! q) ∧
  (∀ x, x ≠ c10.TempFile.fd t → x ∈ fds w1 ↔ x ∈ fds w) ∧
  env w1 = env w.
Proof.
  destruct (c10.TempFile.dtor plat t w) as [w1 r] eqn:E.
  exact (Frame.TempFile_dtor_frame plat t w w1 r E).
Qed.

(** X9. Move assignment does not release what the destination owned: after
    [this = std::move(other)], destroying both objects leaves the file that
    [this] named before (when it is not the file of [other]) in the state
    it was in, and leaves the descriptor [this] held before (when it is not
    the descriptor of [other]) open if it was. *)
Theorem move_assign_leaks_destination
    (plat : platform) (this0 other : c10.TempFile.t) (w : World) :
  Str.c_str (c10.TempFile.name this0) ≠ Str.c_str (c10.TempFile.name other) →
  c10.TempFile.fd this0 ≠ c10.TempFile.fd other →
  let '(this, other') := c10.TempFile.move_assign this0 other in
  let w1 := fst (c10.TempFile.dtor plat other' w) in
  let w2 := fst (c10.TempFile.dtor plat this w1) in
  fs w2 !! Str.c_str (c10.TempFile.name this0)
    = fs w !! Str.c_str (c10.TempFile.name this0) ∧
  (c10.TempFile.fd this0 ∈ fds w2 ↔ c10.TempFile.fd this0 ∈ fds w).
Proof.
  intros Hname Hfd. destruct other as [ofd oname]. simpl in *.
  destruct (c10.TempFile.dtor plat (c10.TempFile.mk ofd oname) w) as [w2 r] eqn:E.
  apply Frame.TempFile_dtor_frame in E as (Hfs & Hfds & _). simpl in *.
  split; [by apply Hfs | by apply Hfds].
Qed.

Lemma move_assign_leaks_destination_witness :
  let w := after_make_tempfile in
  let this0 := c10.TempFile.mk 3 "/tmp/torch-file-faaaaa" in
  let other := c10.TempFile.mk (-1) "/tmp/other" in
  let '(this, other') := c10.TempFile.move_assign this0 other in
  let w1 := fst (c10.TempFile.dtor Posix other' w) in
  let w2 := fst (c10.TempFile.dtor Posix this w1) in
  fs w2 !! Str.c_str (c10.TempFile.name this0)
    = fs w !! Str.c_str (c10.TempFile.name this0) ∧
  (c10.TempFile.fd this0 ∈ fds w2 ↔ c10.TempFile.fd this0 ∈ fds w).
Proof.
  apply (move_assign_leaks_destination Posix
           (c10.TempFile.mk 3 "/tmp/torch-file-faaaaa")
           (c10.TempFile.mk (-1) "/tmp/other") after_make_tempfile);
    by vm_compute.
Defined.

(** X10. Move assignment run on objects in memory. For two distinct
    objects it does what [move_assign] says. When [this] and [other] are
    one object, that object ends with descriptor -1 and an empty name,
    whatever the library leaves in a string move-assigned to itself: it
    has forgotten its file and its descriptor, which its destructor will
    not release. *)
Theorem move_assign_on_objects
    (self_moved : string → string) (this other : nat)
    (h : gmap nat c10.TempFile.t) (a b : c10.TempFile.t) :
  h !! this = Some a → h !! other = Some b →
  (this ≠ other →
   move_assign_at self_moved this other h
   = <[this := fst (c10.TempFile.move_assign a b)]>
       (<[other := snd (c10.TempFile.move_assign a b)]> h)) ∧
  (this = other →
   move_assign_at self_moved this other h = <[this := c10.TempFile.mk (-1) ""]> h ∧
   ∀ plat w, c10.TempFile.dtor plat (c10.TempFile.mk (-1) "") w = (w, Ret tt)).
Proof.
  intros Ha Hb.
  unfold move_assign_at, string_move_assign_at, fd_at, name_at, set_fd, set_name.
  split.
  - intros Hne. rewrite decide_False by done.
    apply map_eq. intros i. simpl.
    repeat (rewrite ?lookup_alter, ?lookup_insert; simpl; repeat case_decide;
            simplify_eq; simpl;
            repeat match goal with H : h !! _ = Some _ |- _ => rewrite H end;
            simpl); try done.
  - intros <-. split; [|intros plat w; reflexivity].
    rewrite decide_True by done.
    apply map_eq. intros i. simpl.
    repeat (rewrite ?lookup_alter, ?lookup_insert; simpl; repeat case_decide;
            simplify_eq; simpl;
            repeat match goal with H : h !! _ = Some _ |- _ => rewrite H end;
            simpl); try done.
Qed.

Lemma move_assign_on_objects_witness :
  move_assign_at (λ s, s) 0 0 {[ 0%nat := c10.TempFile.mk 3 "/tmp/torch-file-faaaaa" ]}
  = <[0%nat := c10.TempFile.mk (-1) ""]>
      {[ 0%nat := c10.TempFile.mk 3 "/tmp/torch-file-faaaaa" ]} ∧
  ∀ plat w, c10.TempFile.dtor plat (c10.TempFile.mk (-1) "") w = (w, Ret tt).
Proof.
  refine (proj2 (move_assign_on_objects (λ s, s) 0 0
                   {[ 0%nat := c10.TempFile.mk 3 "/tmp/torch-file-faaaaa" ]}
                   (c10.TempFile.mk 3 "/tmp/torch-file-faaaaa")
                   (c10.TempFile.mk 3 "/tmp/torch-file-faaaaa") _ _) eq_refl);
    by vm_compute.
Defined.

(** ** The tests of the repository *)

Module Tests.
Import Str StrFacts OS OSFacts Run Factories.




End Tests.


(** X12. On Windows, [TEST(TempFileTest, MatchesExpectedPattern)] fails at
    its first assertion (line 7, [is_regular_file]) whenever [tmpnam_s]
    generates a non-empty name that is free, as it is meant to: the file
    is never created. *)
Theorem TempFileTest_fails_on_win32 (w : World) (n : string)
    (rest : list (option string)) :
  tmpnam_answers w = Some n :: rest →
  Str.c_str n ≠ "" →
  fs w !! Str.c_str n = None →
  ∃ w2, TempFileTest_MatchesExpectedPattern Win32 w = (w2, Ret (Failed 7)) ∧
        fs w2 = fs w.
Proof.
  intros Hans Hne Hfree.
  destruct (Factories.try_make_tempfile_win32_spec "test-pattern-" w)
    as (w1 & r & Htry & Hfs & _ & _ & [[_ Hfail]|(n' & -> & _ & Ha)]).
  { by destruct (Hne (Hfail n rest Hans)). }
  rewrite Hans in Ha. injection Ha as <- _.
  assert (Str.c_str (Str.c_str n) = Str.c_str n) as Hc
    by apply StrFacts.c_str_id, StrFacts.c_str_no_nul.
  assert (∃ w2, c10.TempFile.dtor Win32 (c10.TempFile.mk (-1) (Str.c_str n)) w1
                = (w2, Ret tt) ∧ fs w2 = fs w1) as (w2 & Hdtor & Hfs2).
  { unfold c10.TempFile.dtor, noexcept, bind. cbn [c10.TempFile.name].
    apply StrFacts.empty_false in Hne as ->. cbn [negb].
    destruct (Destruction.fs_remove_missing_win32 (Str.c_str n) w1)
      as (w2 & -> & ? & _); [by rewrite Hc, Hfs |].
    by exists w2. }
  rewrite Hfs in Hfs2.
  unfold TempFileTest_MatchesExpectedPattern, bind.
  rewrite (Failure.make_tempfile_of_try _ _ _ _ _ Htry).
  unfold is_regular_file, syscall. cbn [c10.TempFile.name].
  rewrite bool_decide_eq_false_2 by (rewrite Hc, Hfs, Hfree; discriminate).
  change (negb false) with true. cbv iota beta. rewrite Hdtor.
  exists w2. split; [done |]. by rewrite Hfs2.
Qed.

Lemma TempFileTest_fails_on_win32_witness :
  ∃ w2, TempFileTest_MatchesExpectedPattern Win32 win32_world
        = (w2, Ret (Failed 7)) ∧
        fs w2 = fs win32_world.
Proof.
  apply (TempFileTest_fails_on_win32 win32_world "C:\Temp\s1a4."
           [Some "C:\Temp\s1a4.1"]); by vm_compute.
Defined.



(** ** Environment, failure of [mkdtemp], NUL bytes *)

Module Edge.
Import Str StrFacts OS OSFacts Run Factories.

Lemma first_set_trace (variables : list string) (d : string) (w : World) :
  c10.detail.first_set variables d w
  = (logs (rev (ev_getenv <$> consulted variables (env w))) w,
     Ret (first_value variables d (env w))).
Proof.
  revert w. induction variables as [|v rest IH]; intros w; simpl.
  - unfold ret. by rewrite logs_nil.
  - unfold bind, getenv, syscall. simpl.
    destruct (env w !! v) as [p|] eqn:E; simpl; [done |].
    rewrite IH. simpl. by rewrite logs_log.
Qed.

Lemma c_str_app (a b : string) :
  no_nul a = true → c_str (a +:+ b) = a +:+ c_str b.
Proof.
  unfold no_nul. induction a as [|c a IH]; [done |].
  rewrite !app_cons. simpl. intros [Hc Ha]%andb_prop.
  apply bool_decide_eq_true in Hc. destruct (decide (c = NUL)); [done |].
  by rewrite IH.
Qed.

Lemma c_str_app_nul (a b : string) :
  no_nul a = false → c_str (a +:+ b) = c_str a.
Proof.
  unfold no_nul. induction a as [|c a IH]; [done |].
  rewrite app_cons. simpl.
  destruct (decide (c = NUL)); [done |].
  rewrite bool_decide_eq_true_2 by done. simpl. intros H. by rewrite IH.
Qed.

Lemma ends_with_app p (a b : string) :
  b ≠ "" → ends_with p (a +:+ b) = ends_with p b.
Proof.
  intros Hb. induction a as [|c a IH]; [done |].
  rewrite app_cons. simpl. rewrite IH.
  destruct (a +:+ b) eqn:E; [|done].
  destruct a, b; done.
Qed.

Lemma strip_suffix_ends_X (s stem : string) :
  strip_suffix placeholder s = Some stem → ends_with is_X s = true.
Proof.
  intros ->%strip_suffix_Some.
  change placeholder with ("XXXXX" +:+ String "X" "").
  rewrite <- app_assoc. apply Creation.ends_with_snoc.
Qed.

(** The template a C API reads from the pattern of a prefix that holds a
    NUL byte: a directory part that is empty or ends in a separator, then
    the text of the prefix before its first NUL. *)
Lemma pattern_c_str_nul (w : World) (P : string) :
  no_nul P = false →
  ∃ dir, (dir = "" ∨ ends_with (Path.is_sep Posix) dir = true) ∧
         c_str (pattern_of w P) = dir +:+ c_str P.
Proof.
  intros HP. unfold pattern_of, Path.concat, Path.append.
  pose proof (Creation.first_value_no_nul c10.detail.env_variables "/tmp"
                (env w) eq_refl) as Hb.
  set (base := first_value _ _ _) in *.
  destruct (Path.is_absolute P).
  - exists "". split; [by left |].
    rewrite (c_str_app_nul P _ HP). reflexivity.
  - destruct (Path.has_filename base) eqn:Hf.
    + exists (base +:+ "/"). split; [right; apply Creation.ends_with_snoc |].
      rewrite !app_assoc, <- (app_assoc base "/").
      rewrite c_str_app by (by apply no_nul_app).
      rewrite (c_str_app_nul P _ HP). apply app_assoc.
    + exists base. split.
      * unfold Path.has_filename in Hf.
        destruct base as [|c b]; [by left |]. right. simpl in Hf.
        by apply negb_false_iff in Hf.
      * rewrite app_assoc, c_str_app by done.
        by rewrite (c_str_app_nul P _ HP).
Qed.

Lemma template_rejected (w : World) (P : string) :
  no_nul P = false → ends_with is_X (c_str P) = false →
  strip_suffix placeholder (c_str (pattern_of w P)) = None.
Proof.
  intros HP HX.
  destruct (pattern_c_str_nul w P HP) as (dir & Hdir & ->).
  destruct (strip_suffix placeholder (dir +:+ c_str P)) as [stem|] eqn:E; [|done].
  apply strip_suffix_ends_X in E.
  destruct (decide (c_str P = "")) as [Hc|Hc].
  - rewrite Hc, app_nil_r in E. destruct Hdir as [->|Hsep]; [done |].
    exfalso. clear -E Hsep. induction dir as [|c d IH]; [done |].
    destruct d; simpl in *; [|by apply IH].
    unfold is_X in E. apply bool_decide_eq_true in E as ->. done.
  - rewrite ends_with_app in E by done. congruence.
Qed.

End Edge.

(** X14. [make_filename] asks the environment for [TMPDIR], [TMP], [TEMP],
    [TEMPDIR] in this order and stops at the first one that is set: the
    calls it adds to the record are exactly these [getenv] calls, later
    variables are not consulted, and nothing else of the world changes. *)
Theorem make_filename_consults_until_first_set (P : string) (w : World) :
  ∃ pattern,
    c10.detail.make_filename_posix P w
    = (logs (rev (ev_getenv <$> consulted c10.detail.env_variables (env w))) w,
       Ret pattern) ∧
    (∀ v, env w !! "TMPDIR" = Some v →
          consulted c10.detail.env_variables (env w) = ["TMPDIR"]) ∧
    (consulted c10.detail.env_variables (env w) = c10.detail.env_variables ↔
     env w !! "TMPDIR" = None ∧ env w !! "TMP" = None ∧ env w !! "TEMP" = None).
Proof.
  eexists. split; [|split].
  - unfold c10.detail.make_filename_posix, bind.
    by rewrite Edge.first_set_trace.
  - intros v Hv. simpl. by rewrite Hv.
  - unfold c10.detail.env_variables. simpl.
    destruct (env w !! "TMPDIR"), (env w !! "TMP"), (env w !! "TEMP"),
      (env w !! "TEMPDIR"); simpl; (split; [intros H | intros (? & ? & ?)]);
      done.
Qed.

Lemma make_filename_consults_until_first_set_witness :
  consulted c10.detail.env_variables (env lost_tmpdir_world) = ["TMPDIR"].
Proof.
  destruct (make_filename_consults_until_first_set "torch-file-" lost_tmpdir_world)
    as (pattern & _ & H & _).
  apply (H "/nonexistent"). by vm_compute.
Defined.

(** X15. On POSIX, when [try_make_tempdir] returns the empty result, no
    directory was created: the file system and the open descriptors are
    what they were; if the file system changed, the call returned a value
    and the change is the one new directory it names. *)
Theorem try_make_tempdir_posix_failure_creates_nothing
    (P : string) (w w1 : World) (r : option c10.TempDir.t) :
  c10.try_make_tempdir Posix P w = (w1, Ret r) →
  (r = None → fs w1 = fs w ∧ fds w1 = fds w) ∧
  (fs w1 ≠ fs w →
   ∃ d, r = Some d ∧ fs w !! c10.TempDir.name d = None ∧
        fs w1 = <[c10.TempDir.name d := Dir]> (fs w)).
Proof.
  intros Hrun.
  destruct (Factories.try_make_tempdir_posix_spec P w)
    as (w1' & r' & Hrun' & Hcases).
  rewrite Hrun in Hrun'. simplify_eq.
  destruct r' as [d|].
  - split; [done |]. intros _. exists d. split; [done |].
    by destruct (Creation.try_make_tempdir_posix_creates P w w1' d Hrun)
      as (? & ? & _).
  - destruct Hcases as [(_ & Hfs & Hfds)|(? & ? & _ & ? & _)]; [|done].
    split; [done |]. intros Hne. by destruct Hne.
Qed.

Lemma try_make_tempdir_posix_failure_creates_nothing_witness :
  fs (fst (c10.try_make_tempdir Posix "torch-dir-" lost_tmpdir_world))
  = fs lost_tmpdir_world ∧
  fds (fst (c10.try_make_tempdir Posix "torch-dir-" lost_tmpdir_world))
  = fds lost_tmpdir_world.
Proof.
  refine (proj1 (try_make_tempdir_posix_failure_creates_nothing "torch-dir-"
                   lost_tmpdir_world _ None _) eq_refl).
  by vm_compute.
Defined.

(** X16. On POSIX, a prefix that holds a NUL byte, and whose text before
    the first NUL does not end in [X], makes both fallible factories
    fail: [mkstemp] and [mkdtemp] read the pattern up to the NUL, find no
    placeholder at its end and set [errno] to [EINVAL]; the result is
    empty and nothing is created. *)
Theorem nul_in_prefix_is_rejected (P : string) (w : World) :
  Str.no_nul P = false →
  Str.ends_with is_X (Str.c_str P) = false →
  (∃ w1, c10.try_make_tempfile Posix P w = (w1, Ret None) ∧
         errno w1 = EINVAL ∧ fs w1 = fs w ∧ fds w1 = fds w) ∧
  (∃ w1, c10.try_make_tempdir Posix P w = (w1, Ret None) ∧
         errno w1 = EINVAL ∧ fs w1 = fs w ∧ fds w1 = fds w).
Proof.
  intros HP HX. pose proof (Edge.template_rejected w P HP HX) as Hrej.
  split.
  - unfold c10.try_make_tempfile, c10.detail.make_filename, bind.
    destruct (Run.make_filename_posix_run P w) as [evs ->].
    fold (pattern_of w P). rewrite Factories.pattern_not_empty.
    unfold OS.mkstemp, syscall, OS.gen_tempname. rewrite Hrej. simpl.
    by eexists.
  - unfold c10.try_make_tempdir, bind.
    destruct (Run.make_filename_posix_run P w) as [evs ->].
    fold (pattern_of w P).
    unfold OS.mkdtemp, syscall, OS.gen_tempname. rewrite Hrej. simpl.
    by eexists.
Qed.

Lemma nul_in_prefix_is_rejected_witness :
  (∃ w1, c10.try_make_tempfile Posix (String Str.NUL "x") posix_world
         = (w1, Ret None) ∧
         errno w1 = EINVAL ∧ fs w1 = fs posix_world ∧ fds w1 = fds posix_world) ∧
  (∃ w1, c10.try_make_tempdir Posix (String Str.NUL "x") posix_world
         = (w1, Ret None) ∧
         errno w1 = EINVAL ∧ fs w1 = fs posix_world ∧ fds w1 = fds posix_world).
Proof. apply nul_in_prefix_is_rejected; by vm_compute. Defined.
